(** * Kruskal's algorithm over a Union-Find structure (main.py)

    A shallow embedding of [main.py]: the [UnionFind] class (parent and rank
    lists, [find] with its compression pass, [union] by rank), the [Edge],
    [Graph] and [MinimumSpanningTree] classes, [kruskal] and the fixture
    [create_graph], followed by the properties of the specification.

    Python integers are unbounded, hence [Z].  Python lists are [list]s read
    and written through [py_get] and [py_set], which implement Python's
    subscript rule: an index [i] with [0 <= i < len] addresses position [i],
    an index with [-len <= i < 0] addresses position [len + i], and any other
    index raises [IndexError]. *)

From Stdlib Require Import ZArith Lia List Sorted Permutation Ascii.
From stdpp Require Import base decidable option list gmap pretty.

Local Open Scope Z_scope.

(** ** Outcomes of a Python computation *)

Inductive outcome (A : Type) : Type :=
  | Return (a : A)      (* normal completion with a value *)
  | IndexError          (* Python's built-in IndexError was raised *)
  | Loops.              (* a [while] loop did not finish within its fuel *)
Arguments Return {A} a.
Arguments IndexError {A}.
Arguments Loops {A}.

(** Sequencing: an exception or a loop that does not finish aborts what
    follows.  With this instance [x ← m; k] runs [m] and then [k]. *)
#[global] Instance outcome_bind : MBind outcome := λ A B k m,
  match m with
  | Return a => k a
  | IndexError => IndexError
  | Loops => Loops
  end.

(** ** Python list subscripts *)

(** The position addressed by subscript [i] in a list of length [len]. *)
Definition py_index (len : nat) (i : Z) : option nat :=
  let n := Z.of_nat len in
  if (0 <=? i) && (i <? n) then Some (Z.to_nat i)
  else if (- n <=? i) && (i <? 0) then Some (Z.to_nat (n + i))
  else None.

(** [l[i]] *)
Definition py_get {A} (l : list A) (i : Z) : outcome A :=
  match py_index (length l) i with
  | Some k => match l !! k with Some x => Return x | None => IndexError end
  | None => IndexError
  end.

(** [l[i] = x] *)
Definition py_set {A} (l : list A) (i : Z) (x : A) : outcome (list A) :=
  match py_index (length l) i with
  | Some k => Return (<[k := x]> l)
  | None => IndexError
  end.

(** ** class UnionFind *)

Record UnionFind := mkUnionFind {
  parents : list Z;
  ranks : list Z
}.

(** [range(n)] as a list; empty when [n <= 0]. *)
Definition py_range (n : Z) : list Z := map Z.of_nat (seq 0 (Z.to_nat n)).

(** [UnionFind.__init__] *)
Definition UnionFind_init (vertices_nb : Z) : UnionFind :=
  {| parents := map (λ vertex, vertex) (py_range vertices_nb);
     ranks := map (λ _, 1) (py_range vertices_nb) |}.

(** First loop of [find]:
    [while self.parents[parent] != parent: parent = self.parents[parent]].
    One unit of fuel pays for one evaluation of the loop condition. *)
Fixpoint find_root (fuel : nat) (ps : list Z) (parent : Z) : outcome Z :=
  match fuel with
  | O => Loops
  | S fuel' =>
      p ← py_get ps parent;
      if p =? parent then Return parent else find_root fuel' ps p
  end.

(** Second loop of [find]:
    [while vertex != parent:
         vertex, self.parents[vertex] = self.parents[vertex], parent].
    Python evaluates the right-hand side first and then assigns the targets
    from left to right, so the subscript of the second target is the NEW
    value of [vertex]. *)
Fixpoint compress (fuel : nat) (ps : list Z) (vertex parent : Z)
  : outcome (list Z) :=
  if vertex =? parent then Return ps
  else match fuel with
       | O => Loops
       | S fuel' =>
           next ← py_get ps vertex;
           ps' ← py_set ps next parent;
           compress fuel' ps' next parent
       end.

(** Fuel given to each loop of [find]: a walk over [len] slots that has not
    met a fixed point after [len + 1] lookups is on a cycle. *)
Definition find_fuel (ps : list Z) : nat := S (length ps).

(** [UnionFind.find]: the result and the structure after the call. *)
Definition find (uf : UnionFind) (vertex : Z) : outcome (Z * UnionFind) :=
  parent ← find_root (find_fuel (parents uf)) (parents uf) vertex;
  ps' ← compress (find_fuel (parents uf)) (parents uf) vertex parent;
  Return (parent, {| parents := ps'; ranks := ranks uf |}).

(** [UnionFind.union] *)
Definition union (uf : UnionFind) (vertex1 vertex2 : Z)
  : outcome (bool * UnionFind) :=
  '(parent1, uf1) ← find uf vertex1;
  '(parent2, uf2) ← find uf1 vertex2;
  if parent1 =? parent2 then Return (false, uf2)
  else
    r1 ← py_get (ranks uf2) parent1;
    r2 ← py_get (ranks uf2) parent2;
    if r1 >? r2 then
      ps ← py_set (parents uf2) vertex2 parent1;
      Return (true, {| parents := ps; ranks := ranks uf2 |})
    else if r1 <? r2 then
      ps ← py_set (parents uf2) vertex1 parent2;
      Return (true, {| parents := ps; ranks := ranks uf2 |})
    else
      ps ← py_set (parents uf2) vertex2 parent1;
      r ← py_get (ranks uf2) parent1;
      rs ← py_set (ranks uf2) parent1 (r + 1);
      Return (true, {| parents := ps; ranks := rs |}).

(** ** class Edge, class Graph, class MinimumSpanningTree *)

Record Edge := mkEdge {
  from_ : Z;
  to : Z;
  weight : Z
}.

Record Graph := mkGraph {
  vertices : gset Z;
  edges : list Edge
}.

(** [Graph.__init__] *)
Definition Graph_init : Graph := {| vertices := ∅; edges := [] |}.

(** [Graph.add_edge] *)
Definition add_edge (graph : Graph) (edge : Edge) : Graph :=
  {| vertices := vertices graph ∪ {[from_ edge]} ∪ {[to edge]};
     edges := edges graph ++ [edge] |}.

(** [Graph.get_vertices_nb] *)
Definition get_vertices_nb (graph : Graph) : Z :=
  Z.of_nat (size (vertices graph)).

Record MinimumSpanningTree := mkMST {
  mst_edges : list Edge;
  mst_weight : Z
}.

(** ** sorted(graph.edges, key=lambda e: e.weight)

    Python's [sorted] is stable.  The stable sort is an insertion sort that
    puts an edge in front of the first edge that is not lighter. *)

Fixpoint insert_edge (e : Edge) (l : list Edge) : list Edge :=
  match l with
  | [] => [e]
  | x :: l' =>
      if weight e <=? weight x then e :: x :: l' else x :: insert_edge e l'
  end.

Definition sorted (l : list Edge) : list Edge := foldr insert_edge [] l.

(** ** kruskal *)

(** The [while] loop of [kruskal] over its four variables.  One unit of fuel
    pays for one turn; every turn reads [sorted_edges[edges_idx]] and adds 1
    to [edges_idx], which starts at 0, so the turn after the last edge raises
    [IndexError] and the loop never makes more than [len(sorted_edges) + 1]
    turns. *)
Fixpoint kruskal_while (fuel : nat) (graph : Graph) (sorted_edges : list Edge)
    (min_path_edges : list Edge) (edges_idx : Z) (total_weight : Z)
    (u_find : UnionFind) : outcome MinimumSpanningTree :=
  if Z.of_nat (length min_path_edges) <? get_vertices_nb graph - 1 then
    match fuel with
    | O => Loops
    | S fuel' =>
        edge ← py_get sorted_edges edges_idx;
        let edges_idx := edges_idx + 1 in
        '(parent_f, u1) ← find u_find (from_ edge);
        '(parent_t, u2) ← find u1 (to edge);
        if negb (parent_f =? parent_t) then
          let min_path_edges := min_path_edges ++ [edge] in
          '(_, u3) ← union u2 (from_ edge) (to edge);
          let total_weight := total_weight + weight edge in
          kruskal_while fuel' graph sorted_edges min_path_edges edges_idx
            total_weight u3
        else
          kruskal_while fuel' graph sorted_edges min_path_edges edges_idx
            total_weight u2
    end
  else Return {| mst_edges := min_path_edges; mst_weight := total_weight |}.

Definition kruskal (graph : Graph) : outcome MinimumSpanningTree :=
  let min_path_edges := [] in
  let nb_of_vertices := Z.of_nat (size (vertices graph)) in
  let edges_idx := 0 in
  let total_weight := 0 in
  let sorted_edges := sorted (edges graph) in
  let u_find := UnionFind_init nb_of_vertices in
  kruskal_while (S (length sorted_edges)) graph sorted_edges min_path_edges
    edges_idx total_weight u_find.

(** ** create_graph *)

Definition graph_of_edges (l : list Edge) : Graph :=
  fold_left add_edge l Graph_init.

Definition create_graph : Graph :=
  graph_of_edges
    [ mkEdge 0 1 4; mkEdge 0 2 4; mkEdge 1 2 2; mkEdge 1 0 4; mkEdge 2 0 4;
      mkEdge 2 1 2; mkEdge 2 3 3; mkEdge 2 5 2; mkEdge 2 4 4; mkEdge 3 2 3;
      mkEdge 3 4 3; mkEdge 4 2 4; mkEdge 4 3 3; mkEdge 5 2 2; mkEdge 5 4 3 ].

(** ** Auxiliary notions used by the properties *)

(** What the second loop leaves behind when it starts from [v] and the root
    found by the first loop is [r]: it re-points THE PARENT of [v]. *)
Definition compressed (ps : list Z) (v r : Z) : list Z :=
  if v =? r then ps
  else match py_get ps v with
       | Return x =>
           match py_index (length ps) x with
           | Some k => <[k := r]> ps
           | None => ps
           end
       | _ => ps
       end.


(** [reach ps v o d]: started at [v], the first loop of [find] follows [d]
    parent links and then stops with [o]: at a fixed point of [ps]
    ([Return r]) or at a subscript out of range ([IndexError]). *)
Inductive reach (ps : list Z) : Z → outcome Z → nat → Prop :=
  | reach_root v :
      py_get ps v = Return v → reach ps v (Return v) 0
  | reach_error v :
      py_get ps v = IndexError → reach ps v IndexError 0
  | reach_step v p o d :
      py_get ps v = Return p → p ≠ v → reach ps p o d →
      reach ps v o (S d).

(** The parent list is a forest: every valid subscript leads to a fixed
    point. *)
Definition forest (ps : list Z) : Prop :=
  ∀ v, is_Some (py_index (length ps) v) → ∃ r d, reach ps v (Return r) d.

(** Well-formed structures over [n] elements; [UnionFind_init] builds one and
    [find] and [union] keep it (lemmas [find_wf] and [union_wf]). *)
Record wf_uf (n : nat) (uf : UnionFind) : Prop := mk_wf_uf {
  wf_parents_length : length (parents uf) = n;
  wf_ranks_length : length (ranks uf) = n;
  wf_forest : forest (parents uf)
}.

(** The loop of [kruskal] as a recursion over the edges not read yet:
    [rest] is [sorted_edges[edges_idx:]] (lemma [kruskal_while_loop]). *)
Fixpoint kruskal_loop (nb : Z) (rest : list Edge) (min_path_edges : list Edge)
    (total_weight : Z) (u_find : UnionFind) : outcome MinimumSpanningTree :=
  if Z.of_nat (length min_path_edges) <? nb - 1 then
    match rest with
    | [] => IndexError
    | edge :: rest' =>
        '(parent_f, u1) ← find u_find (from_ edge);
        '(parent_t, u2) ← find u1 (to edge);
        if negb (parent_f =? parent_t) then
          '(_, u3) ← union u2 (from_ edge) (to edge);
          kruskal_loop nb rest' (min_path_edges ++ [edge])
            (total_weight + weight edge) u3
        else
          kruskal_loop nb rest' min_path_edges total_weight u2
    end
  else Return {| mst_edges := min_path_edges; mst_weight := total_weight |}.

(** Sum of the weights of a list of edges. *)
Definition edges_weight (l : list Edge) : Z :=
  foldr (λ e s, weight e + s) 0 l.

(** The order of the sort. *)
Definition by_weight (e1 e2 : Edge) : Prop := weight e1 <= weight e2.

(** An edge whose two endpoints are the same vertex. *)
Definition self_loop (e : Edge) : Prop := from_ e = to e.

(** ** Scripts of DSU operations *)

Inductive op : Type :=
  | Find (v : Z)
  | Union (a b : Z).

Inductive answer : Type :=
  | Root (r : Z)
  | Merged (b : bool).

(** Run a sequence of calls on one structure, collecting what they return. *)
Fixpoint run_ops (ops : list op) (uf : UnionFind)
  : outcome (list answer * UnionFind) :=
  match ops with
  | [] => Return ([], uf)
  | Find v :: ops' =>
      '(r, uf') ← find uf v;
      '(out, uf'') ← run_ops ops' uf';
      Return (Root r :: out, uf'')
  | Union a b :: ops' =>
      '(res, uf') ← union uf a b;
      '(out, uf'') ← run_ops ops' uf';
      Return (Merged res :: out, uf'')
  end.

(** Number of roots: elements [x] with [parents[x] == x]. *)
Definition count_roots (uf : UnionFind) : nat :=
  length (filter (λ x, parents uf !! Z.to_nat x = Some x)
                 (py_range (Z.of_nat (length (parents uf))))).

(** Replaying a list of edges as unions on a fresh structure. *)
Definition replay (n : Z) (l : list Edge) : outcome (list answer * UnionFind) :=
  run_ops (map (λ e, Union (from_ e) (to e)) l) (UnionFind_init n).

(** ** Graph notions of the specification *)

(** [connected l u v]: [u] and [v] are joined by a path of edges of [l],
    each usable in both directions. *)
Inductive connected (l : list Edge) : Z → Z → Prop :=
  | connected_refl u : connected l u u
  | connected_step e u v w :
      e ∈ l →
      (from_ e = u ∧ to e = v) ∨ (from_ e = v ∧ to e = u) →
      connected l v w →
      connected l u w.

(** A list of edges has a cycle when the endpoints of one of its edges are
    already connected by the others. *)
Definition has_cycle (l : list Edge) : Prop :=
  ∃ i e, l !! i = Some e ∧ connected (delete i l) (from_ e) (to e).

(** A spanning tree of [g]: some of its edges, connecting all its vertices,
    without a cycle. *)
Definition spanning_tree (g : Graph) (t : list Edge) : Prop :=
  sublist t (edges g) ∧
  (∀ u v, u ∈ vertices g → v ∈ vertices g → connected t u v) ∧
  ¬ has_cycle t.

(** [w] is the minimum total weight over all spanning trees of [g]. *)
Definition min_spanning_weight (g : Graph) (w : Z) : Prop :=
  (∃ t, spanning_tree g t ∧ edges_weight t = w) ∧
  (∀ t, spanning_tree g t → w <= edges_weight t).

(** Component labels by relabelling: after [relabel lbl u v] everything that
    carried the label of [v] carries the label of [u]. *)
Definition relabel (lbl : Z → Z) (u v : Z) : Z → Z :=
  λ x, if lbl x =? lbl v then lbl u else lbl x.

Definition labels_of (l : list Edge) : Z → Z :=
  fold_left (λ lbl e, relabel lbl (from_ e) (to e)) l (λ x, x).

(** All vertices of [g] carry one label under the edges [t]. *)
Definition spansb (g : Graph) (t : list Edge) : bool :=
  forallb (λ u, forallb (λ v, labels_of t u =? labels_of t v)
                        (elements (vertices g)))
          (elements (vertices g)).

(** All sub-lists of a list. *)
Fixpoint sublists {A} (l : list A) : list (list A) :=
  match l with
  | [] => [[]]
  | x :: l' => map (cons x) (sublists l') ++ sublists l'
  end.

(** ** Example inputs *)

(** A square 0-1-3-2-0 of unit edges with a tail 3-4 of weight 5. *)
Definition square_with_tail : Graph :=
  graph_of_edges
    [ mkEdge 0 1 1; mkEdge 2 3 1; mkEdge 1 3 1; mkEdge 2 0 1; mkEdge 3 4 5 ].

(** The same square next to a vertex 4 that has only a self-loop: two
    connected components. *)
Definition square_and_loop : Graph :=
  graph_of_edges
    [ mkEdge 0 1 1; mkEdge 2 3 1; mkEdge 1 3 1; mkEdge 2 0 1; mkEdge 4 4 9 ].

(** Two vertices and no edge. *)
Definition two_isolated_vertices : Graph :=
  {| vertices := {[0; 1]}; edges := [] |}.

(** A self-loop on 0 and an edge 0-1. *)
Definition loop_and_edge : Graph :=
  graph_of_edges [ mkEdge 0 0 1; mkEdge 0 1 2 ].

(** Four elements after [union(0,1)] and [union(2,3)]: two trees of rank 2,
    with roots 0 and 2. *)
Definition two_pairs : UnionFind :=
  {| parents := [0; 0; 2; 2]; ranks := [2; 1; 2; 1] |}.

(** Six elements: the tree {0,1} of rank 2 with root 0, and the tree
    {2,3,4,5} of rank 3 with root 2. *)
Definition pair_and_quad : UnionFind :=
  {| parents := [0; 0; 2; 2; 2; 4]; ranks := [2; 1; 3; 1; 2; 1] |}.

(** A call whose arguments are subscripts that Python accepts for a list of
    length [n]. *)
Definition op_in_range (n : Z) (o : op) : Prop :=
  match o with
  | Find v => - n <= v < n
  | Union a b => - n <= a < n ∧ - n <= b < n
  end.

(** A single edge between the labels 5 and 7. *)
Definition far_labels : Graph := graph_of_edges [ mkEdge 5 7 1 ].

(** Two vertices with a self-loop each. *)
Definition two_loops : Graph :=
  graph_of_edges [ mkEdge 0 0 1; mkEdge 1 1 1 ].

(** ** Edge.__repr__, MinimumSpanningTree.__repr__, main

    [pretty] prints an integer as Python's [str] does: decimal digits, with a
    leading minus sign for a negative number. *)

(** [Edge.__repr__] *)
Definition Edge_repr (e : Edge) : string :=
  "[from:" +:+ pretty (from_ e) +:+ ", to:" +:+ pretty (to e) +:+
  ", weight:" +:+ pretty (weight e) +:+ "]".

(** [", ".join(repr(e) for e in l)] *)
Fixpoint join_reprs (l : list Edge) : string :=
  match l with
  | [] => EmptyString
  | e :: l' =>
      match l' with
      | [] => Edge_repr e
      | _ => Edge_repr e +:+ ", " +:+ join_reprs l'
      end
  end.

(** How Python prints a list of edges: the [repr] of its elements between
    square brackets, separated by a comma and a space. *)
Definition edges_repr (l : list Edge) : string :=
  "[" +:+ join_reprs l +:+ "]".

(** [MinimumSpanningTree.__repr__] *)
Definition MinimumSpanningTree_repr (t : MinimumSpanningTree) : string :=
  "Minimum spanning tree has total weight of " +:+ pretty (mst_weight t) +:+
  " and has the following edges " +:+ edges_repr (mst_edges t) +:+ " ".

(** [main]: the line printed on standard output. *)
Definition main : outcome string :=
  t ← kruskal create_graph;
  Return (MinimumSpanningTree_repr t +:+ String "010"%char EmptyString).

(** The character [c] occurs in the string [s]. *)
Fixpoint string_has (c : ascii) (s : string) : Prop :=
  match s with
  | EmptyString => False
  | String c' s' => c = c' ∨ string_has c s'
  end.
(** * Properties *)

(** ** Subscripts *)

Lemma py_index_Some len i k :
  py_index len i = Some k →
  (k < len)%nat ∧
  ((0 <= i < Z.of_nat len ∧ k = Z.to_nat i) ∨
   (- Z.of_nat len <= i < 0 ∧ k = Z.to_nat (Z.of_nat len + i))).
Proof.
  unfold py_index.
  destruct (Z.leb_spec 0 i), (Z.ltb_spec i (Z.of_nat len)),
    (Z.leb_spec (- Z.of_nat len) i), (Z.ltb_spec i 0);
    simpl; intros [= <-]; lia.
Qed.

Lemma py_index_None len i :
  py_index len i = None ↔ i < - Z.of_nat len ∨ Z.of_nat len <= i.
Proof.
  unfold py_index.
  destruct (Z.leb_spec 0 i), (Z.ltb_spec i (Z.of_nat len)),
    (Z.leb_spec (- Z.of_nat len) i), (Z.ltb_spec i 0);
    simpl; split; intros; try done; lia.
Qed.

Lemma py_index_nat len k :
  (k < len)%nat → py_index len (Z.of_nat k) = Some k.
Proof.
  intros Hk. unfold py_index.
  destruct (Z.leb_spec 0 (Z.of_nat k)); [|lia].
  destruct (Z.ltb_spec (Z.of_nat k) (Z.of_nat len)); [|lia].
  simpl. f_equal. lia.
Qed.

Lemma py_get_Return {A} (l : list A) i x :
  py_get l i = Return x ↔
  ∃ k, py_index (length l) i = Some k ∧ l !! k = Some x.
Proof.
  unfold py_get. split.
  - destruct (py_index (length l) i) as [k|]; [|discriminate].
    destruct (l !! k) as [y|] eqn:Hk; [|discriminate].
    intros [= ->]. eauto.
  - intros (k & -> & ->). reflexivity.
Qed.

Lemma py_get_out_of_range {A} (l : list A) i :
  i < - Z.of_nat (length l) ∨ Z.of_nat (length l) <= i →
  py_get l i = IndexError.
Proof.
  intros H. unfold py_get. apply py_index_None in H. by rewrite H.
Qed.

Lemma py_get_not_Loops {A} (l : list A) i : py_get l i ≠ Loops.
Proof.
  unfold py_get. destruct (py_index _ _); [destruct (_ !! _)|]; discriminate.
Qed.

Lemma py_get_nat {A} (l : list A) k x :
  l !! k = Some x → py_get l (Z.of_nat k) = Return x.
Proof.
  intros H. apply py_get_Return. exists k. split; [|done].
  apply py_index_nat. by eapply lookup_lt_Some.
Qed.

Lemma py_get_insert (l : list Z) i k x :
  py_index (length l) i = Some k → py_get (<[k := x]> l) i = Return x.
Proof.
  intros Hi. apply py_get_Return. exists k. rewrite length_insert.
  split; [done|]. apply list_lookup_insert_eq.
  by apply py_index_Some in Hi as [? _].
Qed.

Lemma py_get_insert_ne (l : list Z) i j k x :
  py_index (length l) i = Some j → j ≠ k →
  py_get (<[k := x]> l) i = py_get l i.
Proof.
  intros Hi Hne. unfold py_get. rewrite length_insert, Hi.
  by rewrite list_lookup_insert_ne.
Qed.

Lemma py_set_Return {A} (l : list A) i x l' :
  py_set l i x = Return l' ↔
  ∃ k, py_index (length l) i = Some k ∧ l' = <[k := x]> l.
Proof.
  unfold py_set. destruct (py_index (length l) i) as [k|]; split.
  - intros [= <-]. eauto.
  - intros (k' & [= <-] & ->). done.
  - discriminate.
  - intros (? & ? & ?). discriminate.
Qed.

(** ** Sequencing *)

Lemma bind_Return {A B} (m : outcome A) (k : A → outcome B) b :
  m ≫= k = Return b ↔ ∃ a, m = Return a ∧ k a = Return b.
Proof.
  destruct m; simpl; split; try discriminate; eauto.
  - intros (a' & [= <-] & ?). done.
  - intros (? & ? & ?). discriminate.
  - intros (? & ? & ?). discriminate.
Qed.

Lemma Return_bind {A B} (a : A) (k : A → outcome B) : Return a ≫= k = k a.
Proof. reflexivity. Qed.

(** ** find *)

Lemma find_root_unfold fuel ps v :
  find_root (S fuel) ps v =
  (p ← py_get ps v; if p =? v then Return v else find_root fuel ps p).
Proof. reflexivity. Qed.

(** The value returned by the first loop is a fixed point of [parents]. *)
Lemma find_root_fixed fuel ps v r :
  find_root fuel ps v = Return r → py_get ps r = Return r.
Proof.
  revert v. induction fuel as [|fuel IH]; intros v; [discriminate|].
  rewrite find_root_unfold. intros (p & Hp & H)%bind_Return.
  destruct (Z.eqb_spec p v) as [->|Hne].
  - by injection H as <-.
  - eauto.
Qed.

(** More fuel does not change a result. *)
Lemma find_root_fuel_le fuel fuel' ps v r :
  find_root fuel ps v = Return r → (fuel ≤ fuel')%nat →
  find_root fuel' ps v = Return r.
Proof.
  revert fuel' v. induction fuel as [|fuel IH]; intros fuel' v; [discriminate|].
  intros H Hle. destruct fuel' as [|fuel']; [lia|].
  rewrite find_root_unfold in *. apply bind_Return in H as (p & Hp & H).
  rewrite Hp. simpl. destruct (p =? v); [done|]. apply IH; [done|lia].
Qed.

Lemma compress_done fuel ps r : compress fuel ps r r = Return ps.
Proof. destruct fuel; simpl; by rewrite Z.eqb_refl. Qed.

Lemma compress_two_steps fuel ps v r x k :
  v ≠ r → py_get ps v = Return x →
  py_index (length ps) x = Some k →
  py_get ps r = Return r →
  compress (S (S fuel)) ps v r = Return (<[k := r]> ps).
Proof.
  intros Hne Hv Hx Hr.
  change (compress (S (S fuel)) ps v r) with
    (if v =? r then Return ps
     else next ← py_get ps v; ps' ← py_set ps next r;
          compress (S fuel) ps' next r).
  destruct (Z.eqb_spec v r) as [|_]; [done|].
  rewrite Hv, Return_bind. unfold py_set at 1. rewrite Hx, Return_bind.
  change (compress (S fuel) (<[k:=r]> ps) x r) with
    (if x =? r then Return (<[k:=r]> ps)
     else next ← py_get (<[k:=r]> ps) x; ps' ← py_set (<[k:=r]> ps) next r;
          compress fuel ps' next r).
  destruct (Z.eqb_spec x r) as [->|Hxr]; [done|].
  rewrite (py_get_insert _ _ _ _ Hx), Return_bind.
  apply py_get_Return in Hr as (kr & Hkr & Hlr).
  unfold py_set. rewrite length_insert, Hkr, Return_bind.
  rewrite compress_done. f_equal. apply list_insert_id.
  destruct (decide (kr = k)) as [->|Hk].
  - apply list_lookup_insert_eq. by apply py_index_Some in Hx as [? _].
  - by rewrite list_lookup_insert_ne.
Qed.

(** [find] in closed form: whenever the first loop returns, [find] returns
    the same root and leaves [compressed] behind. *)
Lemma find_closed_form uf v r :
  find_root (find_fuel (parents uf)) (parents uf) v = Return r →
  find uf v =
  Return (r, {| parents := compressed (parents uf) v r; ranks := ranks uf |}).
Proof.
  intros Hroot. unfold find. rewrite Hroot, Return_bind.
  unfold compressed. destruct (Z.eqb_spec v r) as [->|Hne].
  { by rewrite compress_done. }
  pose proof (find_root_fixed _ _ _ _ Hroot) as Hr.
  unfold find_fuel in *. rewrite find_root_unfold in Hroot.
  apply bind_Return in Hroot as (x & Hx & Hroot).
  destruct (Z.eqb_spec x v) as [->|Hxv]; [by injection Hroot as ->|].
  destruct (length (parents uf)) as [|len] eqn:Hlen; [discriminate|].
  rewrite find_root_unfold in Hroot.
  apply bind_Return in Hroot as (y & Hy & _).
  apply py_get_Return in Hy as (k & Hk & _). rewrite Hlen in Hk.
  rewrite Hx, Hk.
  rewrite (compress_two_steps len (parents uf) v r x k); try done.
  by rewrite Hlen.
Qed.

Lemma find_Return uf v r uf' :
  find uf v = Return (r, uf') ↔
  find_root (find_fuel (parents uf)) (parents uf) v = Return r ∧
  uf' = {| parents := compressed (parents uf) v r; ranks := ranks uf |}.
Proof.
  split.
  - intros H. assert (find_root (find_fuel (parents uf)) (parents uf) v
                      = Return r) as Hroot.
    { unfold find in H. apply bind_Return in H as (r' & Hr' & H).
      apply bind_Return in H as (ps' & _ & [= -> _]). done. }
    split; [done|]. rewrite (find_closed_form _ _ _ Hroot) in H.
    by injection H as <-.
  - intros [H ->]. by apply find_closed_form.
Qed.

Lemma compressed_length ps v r : length (compressed ps v r) = length ps.
Proof.
  unfold compressed. destruct (v =? r); [done|].
  destruct (py_get ps v); try done.
  destruct (py_index _ _); [apply length_insert|done].
Qed.

(** Compression keeps the root of the vertex it started from: a second
    [find] on the same vertex returns the same root. *)
Lemma find_root_compressed fuel ps v r :
  find_root fuel ps v = Return r →
  find_root (find_fuel (compressed ps v r)) (compressed ps v r) v = Return r.
Proof.
  intros Hroot. pose proof (find_root_fixed _ _ _ _ Hroot) as Hr.
  unfold find_fuel. rewrite compressed_length. unfold compressed.
  destruct (Z.eqb_spec v r) as [->|Hne].
  { rewrite find_root_unfold, Hr. simpl. by rewrite Z.eqb_refl. }
  destruct fuel as [|fuel]; [discriminate|].
  rewrite find_root_unfold in Hroot.
  apply bind_Return in Hroot as (x & Hx & Hroot). rewrite Hx.
  destruct (Z.eqb_spec x v) as [->|Hxv]; [by injection Hroot as ->|].
  destruct fuel as [|fuel]; [discriminate|].
  pose proof Hroot as Hroot'.
  rewrite find_root_unfold in Hroot'.
  apply bind_Return in Hroot' as (y & Hy & _).
  apply py_get_Return in Hy as (k & Hk & _). rewrite Hk.
  apply py_get_Return in Hx as (kv & Hkv & Hlv).
  apply py_get_Return in Hr as (kr & Hkr & Hlr).
  assert (py_get (<[k:=r]> ps) r = Return r) as Hr'.
  { destruct (decide (kr = k)) as [->|Hne'].
    - by apply py_get_insert.
    - rewrite (py_get_insert_ne _ _ _ _ _ Hkr Hne').
      apply py_get_Return; eauto. }
  pose proof (py_index_Some _ _ _ Hkv) as [Hkvlt _].
  pose proof (py_index_Some _ _ _ Hk) as [Hklt _].
  destruct (length ps) as [|len] eqn:Hlen; [lia|].
  rewrite find_root_unfold.
  destruct (decide (kv = k)) as [->|Hkvk].
  - rewrite py_get_insert by (by rewrite Hlen). rewrite Return_bind.
    destruct (Z.eqb_spec r v) as [|_]; [congruence|].
    rewrite find_root_unfold, Hr', Return_bind. by rewrite Z.eqb_refl.
  - rewrite (py_get_insert_ne _ v kv) by (by rewrite ?Hlen).
    assert (py_get ps v = Return x) as -> by (apply py_get_Return; rewrite Hlen; eauto).
    rewrite Return_bind.
    destruct (Z.eqb_spec x v) as [|_]; [done|].
    destruct len as [|len]; [lia|].
    rewrite find_root_unfold, py_get_insert by (by rewrite Hlen).
    rewrite Return_bind. destruct (Z.eqb_spec r x) as [->|_]; [done|].
    rewrite find_root_unfold, Hr', Return_bind. by rewrite Z.eqb_refl.
Qed.

(** Two consecutive calls of [find] on the same vertex agree. *)
Lemma find_twice uf v r uf' :
  find uf v = Return (r, uf') → ∃ uf'', find uf' v = Return (r, uf'').
Proof.
  intros [Hroot ->]%find_Return. eexists. apply find_closed_form. simpl.
  by eapply find_root_compressed.
Qed.

(** Fixed points survive compression. *)
Lemma compressed_fixed fuel ps v r r0 :
  find_root fuel ps v = Return r →
  py_get ps r0 = Return r0 →
  py_get (compressed ps v r) r0 = Return r0.
Proof.
  intros Hroot Hr0. unfold compressed.
  destruct (Z.eqb_spec v r) as [->|Hne]; [done|].
  destruct fuel as [|fuel]; [discriminate|].
  rewrite find_root_unfold in Hroot.
  apply bind_Return in Hroot as (x & Hx & Hroot). rewrite Hx.
  destruct (Z.eqb_spec x v) as [->|Hxv]; [by injection Hroot as ->|].
  destruct (py_index (length ps) x) as [k|] eqn:Hk; [|done].
  pose proof Hr0 as (k0 & Hk0 & Hl0)%py_get_Return.
  destruct (decide (k0 = k)) as [->|Hkk].
  - assert (r = r0) as ->; [|by apply py_get_insert].
    destruct fuel as [|fuel]; [discriminate|].
    rewrite find_root_unfold in Hroot.
    assert (py_get ps x = Return r0) as Hx'
      by (apply py_get_Return; eauto).
    rewrite Hx', Return_bind in Hroot.
    destruct (Z.eqb_spec r0 x) as [->|_]; [by injection Hroot|].
    destruct fuel as [|fuel]; [discriminate|].
    rewrite find_root_unfold, Hr0, Return_bind, Z.eqb_refl in Hroot.
    by injection Hroot.
  - by rewrite (py_get_insert_ne _ _ _ _ _ Hk0 Hkk).
Qed.

(** ** The first loop of find, relationally *)

Lemma reach_find_root ps v o d fuel :
  reach ps v o d → (d < fuel)%nat → find_root fuel ps v = o.
Proof.
  intros H. revert fuel.
  induction H as [v Hv|v Hv|v p o d Hv Hne _ IH]; intros fuel Hfuel;
    (destruct fuel as [|fuel]; [lia|]); rewrite find_root_unfold, Hv.
  - rewrite Return_bind. by rewrite Z.eqb_refl.
  - done.
  - rewrite Return_bind. destruct (Z.eqb_spec p v) as [|_]; [done|].
    apply IH. lia.
Qed.

Lemma find_root_reach fuel ps v o :
  find_root fuel ps v = o → o ≠ Loops →
  ∃ d, (d < fuel)%nat ∧ reach ps v o d.
Proof.
  revert v. induction fuel as [|fuel IH]; intros v Hf Ho; [by subst|].
  rewrite find_root_unfold in Hf.
  destruct (py_get ps v) as [p| |] eqn:Hv.
  - rewrite Return_bind in Hf. destruct (Z.eqb_spec p v) as [->|Hne].
    + subst o. exists 0%nat. split; [lia|by constructor].
    + destruct (IH _ Hf Ho) as (d & Hd & Hreach).
      exists (S d). split; [lia|by econstructor].
  - subst o. exists 0%nat. split; [lia|by constructor].
  - by apply py_get_not_Loops in Hv.
Qed.

Lemma reach_fun ps v o d o' d' :
  reach ps v o d → reach ps v o' d' → o = o' ∧ d = d'.
Proof.
  intros H. revert o' d'.
  induction H as [v Hv|v Hv|v p o d Hv Hne _ IH]; intros o' d' H';
    inversion H' as [? Hv'|? Hv'|? p' ? ? Hv' Hne' Hp']; subst;
    rewrite Hv in Hv'; try discriminate; try done.
  - by injection Hv' as <-.
  - by injection Hv' as ->.
  - injection Hv' as <-. by destruct (IH _ _ Hp') as [-> ->].
Qed.

(** The slots read on the way (the last one excepted) are pairwise
    distinct: a slot read twice would send the walk round a cycle. *)
Lemma reach_path ps v o d :
  reach ps v o d →
  ∃ l : list nat,
    length l = d ∧ NoDup l ∧
    ∀ k, k ∈ l →
      ∃ p d', ps !! k = Some p ∧ (d' < d)%nat ∧ reach ps p o d'.
Proof.
  induction 1 as [v Hv|v Hv|v p o d Hv Hne Hp (l & Hlen & Hnd & Hl)].
  - exists []. split_and!; [done|constructor|]. by intros k ?%elem_of_nil.
  - exists []. split_and!; [done|constructor|]. by intros k ?%elem_of_nil.
  - apply py_get_Return in Hv as (kv & Hkv & Hlv).
    exists (kv :: l). split_and!.
    + simpl. by rewrite Hlen.
    + constructor; [|done]. intros (p' & d' & Hp' & Hd' & Hreach)%Hl.
      rewrite Hlv in Hp'. injection Hp' as <-.
      destruct (reach_fun _ _ _ _ _ _ Hp Hreach). lia.
    + intros k [->|Hk]%elem_of_cons.
      * exists p, d. split_and!; [done|lia|done].
      * destruct (Hl _ Hk) as (p' & d' & ? & ? & ?).
        exists p', d'. split_and!; [done|lia|done].
Qed.

Lemma reach_bound ps v o d : reach ps v o d → (d ≤ length ps)%nat.
Proof.
  intros (l & Hlen & Hnd & Hl)%reach_path.
  assert (l ⊆+ seq 0 (length ps)) as Hsub.
  { apply NoDup_submseteq; [done|]. intros k (p & _ & Hk & _)%Hl.
    apply elem_of_seq. apply lookup_lt_Some in Hk. lia. }
  apply submseteq_length in Hsub. rewrite length_seq in Hsub. lia.
Qed.

(** The fuel of [find] is exact: if the first loop is ever going to stop,
    it stops within [find_fuel].  [Loops] therefore stands for a walk that
    goes round a cycle of parent links for ever. *)
Lemma find_root_fuel_exact fuel ps v :
  find_root fuel ps v ≠ Loops →
  find_root (find_fuel ps) ps v = find_root fuel ps v.
Proof.
  intros Ho. destruct (find_root_reach fuel ps v _ eq_refl Ho) as (d & _ & H).
  apply (reach_find_root _ _ _ d); [done|].
  apply reach_bound in H. unfold find_fuel. lia.
Qed.

(** ** Forests *)

Lemma py_get_insert_fixed (ps : list Z) k r :
  py_get ps r = Return r → py_get (<[k := r]> ps) r = Return r.
Proof.
  intros Hr. pose proof Hr as (kr & Hkr & Hlr)%py_get_Return.
  destruct (decide (kr = k)) as [->|Hne].
  - by apply py_get_insert.
  - by rewrite (py_get_insert_ne _ _ _ _ _ Hkr Hne).
Qed.

(** On a forest the first loop of [find] never runs out of fuel: it raises
    [IndexError] on a bad subscript and returns a root otherwise. *)
Lemma forest_find_root ps v :
  forest ps →
  (py_index (length ps) v = None ∧
   find_root (find_fuel ps) ps v = IndexError) ∨
  (is_Some (py_index (length ps) v) ∧
   ∃ r, find_root (find_fuel ps) ps v = Return r).
Proof.
  intros Hf. destruct (py_index (length ps) v) as [kv|] eqn:Hkv.
  - right. split; [done|]. destruct (Hf v) as (r & d & Hreach).
    { by rewrite Hkv. }
    exists r. apply (reach_find_root _ _ _ d); [done|].
    apply reach_bound in Hreach. unfold find_fuel. lia.
  - left. split; [done|]. unfold find_fuel. rewrite find_root_unfold.
    unfold py_get. by rewrite Hkv.
Qed.

(** Re-pointing any slot to a fixed point keeps the forest. *)
Lemma forest_insert_root ps k r :
  forest ps → py_get ps r = Return r → forest (<[k := r]> ps).
Proof.
  intros Hf Hr v Hv. rewrite length_insert in Hv.
  destruct (Hf v Hv) as (r0 & d0 & H0).
  destruct Hv as [kv Hkv].
  pose proof (py_get_insert_fixed ps k r Hr) as Hr'.
  assert (∀ u, py_index (length ps) u = Some k →
            ∃ r' d', reach (<[k := r]> ps) u (Return r') d') as Hat.
  { intros u Hu. pose proof (py_get_insert ps u k r Hu) as Hget.
    destruct (decide (r = u)) as [->|Hne].
    - exists u, 0%nat. by constructor.
    - exists r, 1%nat. eapply reach_step; [done..|]. by constructor. }
  clear Hkv kv. remember (Return r0) as o eqn:Ho.
  induction H0 as [v Hv|v Hv|v p o d Hv Hne _ IH].
  - pose proof Hv as (kv & Hkv & _)%py_get_Return.
    destruct (decide (kv = k)) as [->|Hkk]; [by apply Hat|].
    exists v, 0%nat. constructor.
    by rewrite (py_get_insert_ne _ _ _ _ _ Hkv Hkk).
  - discriminate.
  - pose proof Hv as (kv & Hkv & _)%py_get_Return.
    destruct (decide (kv = k)) as [->|Hkk]; [by apply Hat|].
    destruct (IH Ho) as (r' & d' & Hreach).
    exists r', (S d'). eapply reach_step; [|done..].
    by rewrite (py_get_insert_ne _ _ _ _ _ Hkv Hkk).
Qed.

Lemma forest_compressed fuel ps v r :
  forest ps → find_root fuel ps v = Return r → forest (compressed ps v r).
Proof.
  intros Hf Hr%find_root_fixed. unfold compressed.
  destruct (v =? r); [done|]. destruct (py_get ps v); [|done..].
  destruct (py_index _ _); [|done]. by apply forest_insert_root.
Qed.

(** ** Well-formed structures *)

Lemma py_range_lookup n k :
  (k < Z.to_nat n)%nat → py_range n !! k = Some (Z.of_nat k).
Proof.
  intros Hk. unfold py_range. rewrite list_lookup_fmap.
  by rewrite lookup_seq_lt.
Qed.

Lemma py_range_length n : length (py_range n) = Z.to_nat n.
Proof. unfold py_range. by rewrite length_map, length_seq. Qed.

Lemma UnionFind_init_wf n : wf_uf (Z.to_nat n) (UnionFind_init n).
Proof.
  split; simpl.
  - by rewrite length_map, py_range_length.
  - by rewrite length_map, py_range_length.
  - intros v [kv Hkv]. rewrite length_map, py_range_length in Hkv.
    pose proof (py_index_Some _ _ _ Hkv) as [Hlt _].
    assert (∀ u, py_index (Z.to_nat n) u = Some kv →
              py_get (map (λ vertex, vertex) (py_range n)) u =
              Return (Z.of_nat kv)) as Hget.
    { intros u Hu. apply py_get_Return. exists kv.
      rewrite length_map, py_range_length. split; [done|].
      by rewrite list_lookup_fmap, py_range_lookup. }
    pose proof (Hget _ (py_index_nat _ _ Hlt)) as Hroot.
    destruct (decide (Z.of_nat kv = v)) as [<-|Hne].
    + exists (Z.of_nat kv), 0%nat. by constructor.
    + exists (Z.of_nat kv), 1%nat.
      eapply reach_step; [by apply Hget|done|]. by constructor.
Qed.

(** [find] on a well-formed structure: it raises [IndexError] exactly on a
    subscript outside [[-n, n)], and otherwise returns a root and a
    well-formed structure with the same ranks and at least the same fixed
    points. *)
Lemma find_wf n uf v :
  wf_uf n uf →
  (py_index n v = None ∧ find uf v = IndexError) ∨
  (∃ r uf', find uf v = Return (r, uf') ∧ wf_uf n uf' ∧
      is_Some (py_index n v) ∧
      py_get (parents uf') r = Return r ∧
      ranks uf' = ranks uf ∧
      ∀ r0, py_get (parents uf) r0 = Return r0 →
            py_get (parents uf') r0 = Return r0).
Proof.
  intros [Hlen Hrk Hf].
  destruct (forest_find_root (parents uf) v Hf)
    as [[Hv Herr]|[Hv (r & Hroot)]].
  - left. rewrite <- Hlen. split; [done|]. unfold find. by rewrite Herr.
  - right. exists r. eexists. split; [by apply find_closed_form|]. simpl.
    pose proof (λ r0, compressed_fixed _ _ _ _ r0 Hroot) as Hfix.
    split_and!; [split; simpl| | |done|done].
    + by rewrite compressed_length.
    + done.
    + by eapply forest_compressed.
    + by rewrite <- Hlen.
    + by eapply Hfix, find_root_fixed.
Qed.

(** [union] on a well-formed structure never loops, and what it returns is
    well-formed. *)
Lemma union_wf n uf a b :
  wf_uf n uf →
  union uf a b = IndexError ∨
  ∃ res uf', union uf a b = Return (res, uf') ∧ wf_uf n uf'.
Proof.
  intros Hwf. unfold union.
  destruct (find_wf n uf a Hwf)
    as [[_ ->]|(r1 & uf1 & -> & Hwf1 & [ka Hka] & Hr1 & Hrk1 & _)];
    [by left|].
  rewrite Return_bind.
  destruct (find_wf n uf1 b Hwf1)
    as [[_ ->]|(r2 & uf2 & -> & Hwf2 & [kb Hkb] & Hr2 & Hrk2 & Hfix)];
    [by left|].
  rewrite Return_bind. right.
  destruct (Z.eqb_spec r1 r2) as [_|Hne]; [by eauto|].
  destruct Hwf2 as [Hlen2 Hrlen2 Hf2].
  apply Hfix in Hr1.
  pose proof Hr1 as (k1 & Hk1 & Hl1)%py_get_Return.
  pose proof Hr2 as (k2 & Hk2 & Hl2)%py_get_Return.
  rewrite Hlen2 in Hk1, Hk2.
  destruct (lookup_lt_is_Some_2 (ranks uf2) k1) as [x1 Hx1].
  { rewrite Hrlen2. by apply py_index_Some in Hk1 as [? _]. }
  destruct (lookup_lt_is_Some_2 (ranks uf2) k2) as [x2 Hx2].
  { rewrite Hrlen2. by apply py_index_Some in Hk2 as [? _]. }
  assert (py_get (ranks uf2) r1 = Return x1) as ->
    by (apply py_get_Return; rewrite Hrlen2; eauto).
  assert (py_get (ranks uf2) r2 = Return x2) as ->
    by (apply py_get_Return; rewrite Hrlen2; eauto).
  rewrite !Return_bind.
  unfold py_set. rewrite Hlen2, Hrlen2, Hka, Hkb, Hk1, !Return_bind.
  destruct (x1 >? x2); [|destruct (x1 <? x2)]; do 2 eexists;
    (split; [reflexivity|]);
    (split; simpl; [by rewrite length_insert|by rewrite ?length_insert|]);
    by apply forest_insert_root.
Qed.

(** A script of calls on a well-formed structure never loops. *)
Lemma run_ops_wf n ops uf :
  wf_uf n uf →
  run_ops ops uf = IndexError ∨
  ∃ out uf', run_ops ops uf = Return (out, uf') ∧ wf_uf n uf'.
Proof.
  revert uf. induction ops as [|[v|a b] ops IH]; intros uf Hwf; simpl.
  - right. eauto.
  - destruct (find_wf n uf v Hwf) as [[_ ->]|(r & uf1 & -> & Hwf1 & _)];
      [by left|].
    rewrite Return_bind.
    destruct (IH uf1 Hwf1) as [->|(out & uf2 & -> & Hwf2)]; [by left|].
    right. eauto.
  - destruct (union_wf n uf a b Hwf) as [->|(res & uf1 & -> & Hwf1)];
      [by left|].
    rewrite Return_bind.
    destruct (IH uf1 Hwf1) as [->|(out & uf2 & -> & Hwf2)]; [by left|].
    right. eauto.
Qed.

(** When [find] is reported to loop, its first loop does not stop with any
    amount of fuel. *)
Lemma find_Loops uf v :
  find uf v = Loops → ∀ fuel, find_root fuel (parents uf) v = Loops.
Proof.
  intros Hfind fuel.
  destruct (find_root (find_fuel (parents uf)) (parents uf) v)
    as [r| |] eqn:Hroot.
  - by rewrite (find_closed_form _ _ _ Hroot) in Hfind.
  - unfold find in Hfind. by rewrite Hroot in Hfind.
  - destruct (find_root fuel (parents uf) v) as [r| |] eqn:Hf; [| |done].
    + rewrite <- (find_root_fuel_exact fuel), Hroot in Hf; [done|].
      by rewrite Hf.
    + rewrite <- (find_root_fuel_exact fuel), Hroot in Hf; [done|].
      by rewrite Hf.
Qed.

(** ** The sort *)

Lemma insert_edge_Permutation e l : insert_edge e l ≡ₚ e :: l.
Proof.
  induction l as [|x l IH]; simpl; [done|].
  destruct (weight e <=? weight x); [done|].
  rewrite IH. apply Permutation_swap.
Qed.

Lemma sorted_Permutation l : sorted l ≡ₚ l.
Proof.
  induction l as [|e l IH]; simpl; [done|].
  by rewrite insert_edge_Permutation, IH.
Qed.

Lemma sorted_length l : length (sorted l) = length l.
Proof. by rewrite sorted_Permutation. Qed.

Lemma insert_edge_Sorted e l :
  Sorted by_weight l → Sorted by_weight (insert_edge e l).
Proof.
  induction 1 as [|x l Hl IH Hx]; simpl.
  - by repeat constructor.
  - destruct (Z.leb_spec (weight e) (weight x)).
    + repeat constructor; done.
    + constructor; [done|]. destruct Hx as [|y l' Hy]; simpl.
      * constructor. unfold by_weight. lia.
      * destruct (weight e <=? weight y); constructor;
          unfold by_weight; [lia|done].
Qed.

Lemma sorted_Sorted l : Sorted by_weight (sorted l).
Proof.
  induction l as [|e l IH]; simpl; [constructor|by apply insert_edge_Sorted].
Qed.

(** Stability: the edges of any one weight keep their relative order. *)
Lemma insert_edge_stable w e l :
  Sorted by_weight l →
  filter (λ x, weight x = w) (insert_edge e l) =
  filter (λ x, weight x = w) (e :: l).
Proof.
  induction 1 as [|x l Hl IH Hx]; simpl; [done|].
  destruct (Z.leb_spec (weight e) (weight x)) as [|Hlt]; [done|].
  rewrite (filter_cons _ x (insert_edge e l)), IH.
  rewrite !filter_cons.
  destruct (decide (weight x = w)), (decide (weight e = w)); try done. lia.
Qed.

Lemma sorted_stable w l :
  filter (λ x, weight x = w) (sorted l) = filter (λ x, weight x = w) l.
Proof.
  induction l as [|e l IH]; simpl; [done|].
  rewrite insert_edge_stable by apply sorted_Sorted.
  rewrite !filter_cons. by rewrite IH.
Qed.

(** ** kruskal *)

Lemma kruskal_loop_unfold nb rest acc total uf :
  kruskal_loop nb rest acc total uf =
  if Z.of_nat (length acc) <? nb - 1 then
    match rest with
    | [] => IndexError
    | edge :: rest' =>
        '(parent_f, u1) ← find uf (from_ edge);
        '(parent_t, u2) ← find u1 (to edge);
        if negb (parent_f =? parent_t) then
          '(_, u3) ← union u2 (from_ edge) (to edge);
          kruskal_loop nb rest' (acc ++ [edge]) (total + weight edge) u3
        else
          kruskal_loop nb rest' acc total u2
    end
  else Return {| mst_edges := acc; mst_weight := total |}.
Proof. destruct rest; reflexivity. Qed.

(** The loop with its index is the recursion over the unread edges. *)
Lemma kruskal_while_loop fuel g l i acc total uf :
  (length l - i < fuel)%nat →
  kruskal_while fuel g l acc (Z.of_nat i) total uf =
  kruskal_loop (get_vertices_nb g) (drop i l) acc total uf.
Proof.
  revert i acc total uf.
  induction fuel as [|fuel IH]; intros i acc total uf Hfuel; [lia|].
  rewrite kruskal_loop_unfold. simpl.
  destruct (Z.of_nat (length acc) <? get_vertices_nb g - 1); [|done].
  destruct (l !! i) as [e|] eqn:Hi.
  - rewrite (py_get_nat _ _ _ Hi), Return_bind.
    rewrite (drop_S _ _ _ Hi).
    replace (Z.of_nat i + 1) with (Z.of_nat (S i)) by lia.
    apply lookup_lt_Some in Hi.
    destruct (find uf (from_ e)) as [[pf u1]| |]; [|done..].
    rewrite !Return_bind.
    destruct (find u1 (to e)) as [[pt u2]| |]; [|done..].
    rewrite !Return_bind.
    destruct (negb _); [|apply IH; lia].
    destruct (union u2 (from_ e) (to e)) as [[b u3]| |]; [|done..].
    rewrite !Return_bind. apply IH. lia.
  - apply lookup_ge_None in Hi.
    rewrite py_get_out_of_range by lia. by rewrite drop_ge.
Qed.

Lemma kruskal_loop_eq g :
  kruskal g =
  kruskal_loop (get_vertices_nb g) (sorted (edges g)) [] 0
    (UnionFind_init (Z.of_nat (size (vertices g)))).
Proof.
  unfold kruskal.
  rewrite (kruskal_while_loop _ _ _ 0) by lia. by rewrite drop_0.
Qed.

Lemma edges_weight_snoc l e :
  edges_weight (l ++ [e]) = edges_weight l + weight e.
Proof.
  induction l as [|x l IH]; simpl; [lia|]. unfold edges_weight in *.
  simpl. rewrite IH. lia.
Qed.

(** The loop only ever appends edges whose endpoints had different roots;
    a self-loop is therefore skipped, and the running total is the weight of
    the accepted edges. *)
Lemma kruskal_loop_accepts nb rest acc total uf mst :
  kruskal_loop nb rest acc total uf = Return mst →
  Forall (λ e, ¬ self_loop e) acc → total = edges_weight acc →
  Forall (λ e, ¬ self_loop e) (mst_edges mst) ∧
  mst_weight mst = edges_weight (mst_edges mst) ∧
  ∃ l, mst_edges mst = acc ++ l ∧ sublist l rest.
Proof.
  revert acc total uf.
  induction rest as [|e rest IH]; intros acc total uf;
    rewrite kruskal_loop_unfold;
    destruct (Z.of_nat (length acc) <? nb - 1).
  - discriminate.
  - intros [= <-] Hacc ->. simpl. split_and!; [done..|].
    exists []. by rewrite app_nil_r.
  - intros H Hacc ->.
    apply bind_Return in H as ([pf u1] & Hf & H).
    apply bind_Return in H as ([pt u2] & Ht & H).
    destruct (Z.eqb_spec pf pt) as [->|Hne]; simpl in H.
    + destruct (IH _ _ _ H Hacc eq_refl) as (? & ? & l & ? & ?).
      split_and!; [done..|]. exists l. split; [done|]. by constructor.
    + apply bind_Return in H as ([b u3] & _ & H).
      apply IH in H as (? & ? & l & Hl & ?).
      * split_and!; [done..|]. exists (e :: l).
        split; [by rewrite Hl, <- app_assoc|by constructor].
      * apply Forall_app. split; [done|]. constructor; [|done].
        intros Hself. unfold self_loop in Hself. rewrite <- Hself in Ht.
        destruct (find_twice _ _ _ _ Hf) as (u' & Hf'). congruence.
      * by rewrite edges_weight_snoc.
  - intros [= <-] Hacc ->. simpl. split_and!; [done..|].
    exists []. split; [by rewrite app_nil_r|apply sublist_nil_l].
Qed.

(** With fewer than [n - 1] edges at hand the loop runs off the end of the
    sorted list (or meets a bad endpoint first): [IndexError] either way. *)
Lemma kruskal_loop_few_edges n rest acc total uf :
  wf_uf n uf →
  Z.of_nat (length acc) + Z.of_nat (length rest) < Z.of_nat n - 1 →
  kruskal_loop (Z.of_nat n) rest acc total uf = IndexError.
Proof.
  revert acc total uf.
  induction rest as [|e rest IH]; intros acc total uf Hwf Hlen;
    rewrite kruskal_loop_unfold;
    (destruct (Z.ltb_spec (Z.of_nat (length acc)) (Z.of_nat n - 1));
     [|simpl in Hlen; lia]); [done|].
  destruct (find_wf n uf (from_ e) Hwf)
    as [[_ ->]|(r1 & u1 & -> & Hwf1 & _)]; [done|].
  rewrite Return_bind.
  destruct (find_wf n u1 (to e) Hwf1)
    as [[_ ->]|(r2 & u2 & -> & Hwf2 & _)]; [done|].
  rewrite Return_bind. simpl in Hlen.
  destruct (negb _).
  - destruct (union_wf n u2 (from_ e) (to e) Hwf2)
      as [->|(b & u3 & -> & Hwf3)]; [done|].
    rewrite Return_bind. apply IH; [done|]. rewrite length_app. simpl. lia.
  - apply IH; [done|lia].
Qed.

(** [kruskal] never loops: it returns or raises [IndexError]. *)
Lemma kruskal_loop_not_Loops n nb rest acc total uf :
  wf_uf n uf → kruskal_loop nb rest acc total uf ≠ Loops.
Proof.
  revert acc total uf.
  induction rest as [|e rest IH]; intros acc total uf Hwf;
    rewrite kruskal_loop_unfold;
    (destruct (Z.of_nat (length acc) <? nb - 1); [|done]); [done|].
  destruct (find_wf n uf (from_ e) Hwf)
    as [[_ ->]|(r1 & u1 & -> & Hwf1 & _)]; [done|].
  rewrite Return_bind.
  destruct (find_wf n u1 (to e) Hwf1)
    as [[_ ->]|(r2 & u2 & -> & Hwf2 & _)]; [done|].
  rewrite Return_bind.
  destruct (negb _); [|by apply IH].
  destruct (union_wf n u2 (from_ e) (to e) Hwf2)
    as [->|(b & u3 & -> & Hwf3)]; [done|].
  rewrite Return_bind. by apply IH.
Qed.

Lemma kruskal_not_Loops g : kruskal g ≠ Loops.
Proof.
  rewrite kruskal_loop_eq. eapply kruskal_loop_not_Loops, UnionFind_init_wf.
Qed.

(** ** Connectivity and component labels *)

Lemma connected_trans l u v w :
  connected l u v → connected l v w → connected l u w.
Proof.
  induction 1 as [|e u x v He Hends _ IH]; [done|].
  intros Hvw. eapply connected_step; [done..|]. by apply IH.
Qed.

Lemma connected_edge l e :
  e ∈ l → connected l (from_ e) (to e) ∧ connected l (to e) (from_ e).
Proof.
  intros He. split; (eapply connected_step; [done| |apply connected_refl]);
    [by left|by right].
Qed.

Lemma connected_sym l u v : connected l u v → connected l v u.
Proof.
  induction 1 as [|e u x v He Hends _ IH]; [apply connected_refl|].
  eapply connected_trans; [done|].
  eapply connected_step; [done| |apply connected_refl].
  destruct Hends as [[? ?]|[? ?]]; [by right|by left].
Qed.

Lemma connected_sublist t l u v :
  sublist t l → connected t u v → connected l u v.
Proof.
  intros Hsub. induction 1 as [|e u x v He Hends _ IH]; [apply connected_refl|].
  eapply connected_step; [|done..]. by eapply elem_of_sublist.
Qed.

(** A labelling that is constant along every edge is constant along every
    path. *)
Lemma connected_labels (f : Z → Z) l u v :
  (∀ e, e ∈ l → f (from_ e) = f (to e)) → connected l u v → f u = f v.
Proof.
  intros Hf. induction 1 as [|e u x v He Hends _ IH]; [done|].
  rewrite <- IH. specialize (Hf e He).
  destruct Hends as [[<- <-]|[<- <-]]; done.
Qed.

Lemma relabel_fold_eq l lbl x y :
  lbl x = lbl y →
  fold_left (λ lbl e, relabel lbl (from_ e) (to e)) l lbl x =
  fold_left (λ lbl e, relabel lbl (from_ e) (to e)) l lbl y.
Proof.
  revert lbl. induction l as [|e l IH]; intros lbl Hxy; [done|].
  simpl. apply IH. unfold relabel. by rewrite Hxy.
Qed.

Lemma relabel_fold_edges l lbl e :
  e ∈ l →
  fold_left (λ lbl e, relabel lbl (from_ e) (to e)) l lbl (from_ e) =
  fold_left (λ lbl e, relabel lbl (from_ e) (to e)) l lbl (to e).
Proof.
  revert lbl. induction l as [|e0 l IH]; intros lbl He.
  - by apply elem_of_nil in He.
  - simpl. apply elem_of_cons in He as [->|He]; [|by apply IH].
    apply relabel_fold_eq. unfold relabel. rewrite Z.eqb_refl.
    by destruct (lbl (from_ e0) =? lbl (to e0)).
Qed.

(** Connected vertices carry the same label. *)
Lemma labels_sound l u v :
  connected l u v → labels_of l u = labels_of l v.
Proof.
  apply connected_labels. intros e He. by apply relabel_fold_edges.
Qed.

Lemma spanning_tree_spansb g t : spanning_tree g t → spansb g t = true.
Proof.
  intros (_ & Hconn & _). unfold spansb.
  apply forallb_forall. intros u Hu. apply forallb_forall. intros v Hv.
  apply Z.eqb_eq, labels_sound, Hconn; by apply elem_of_elements, list_elem_of_In.
Qed.

Lemma sublist_sublists {A} (t l : list A) : sublist t l → In t (sublists l).
Proof.
  induction 1 as [|x t l _ IH|x t l _ IH]; simpl.
  - by left.
  - apply in_or_app. left. by apply in_map.
  - apply in_or_app. by right.
Qed.

(** A lower bound checked on every sub-list of the edges holds for every
    spanning tree. *)
Lemma spanning_weight_bound g w :
  forallb (λ t, implb (spansb g t) (w <=? edges_weight t))
          (sublists (edges g)) = true →
  ∀ t, spanning_tree g t → w <= edges_weight t.
Proof.
  intros Hall t Ht. pose proof (spanning_tree_spansb _ _ Ht) as Hs.
  destruct Ht as (Hsub & _).
  apply sublist_sublists in Hsub.
  pose proof (proj1 (forallb_forall _ _) Hall t Hsub) as H. simpl in H.
  rewrite Hs in H. simpl in H. by apply Z.leb_le.
Qed.

(** ** The fixture graph *)

Lemma kruskal_create_graph :
  kruskal create_graph =
  Return {| mst_edges := [ mkEdge 1 2 2; mkEdge 2 5 2; mkEdge 2 3 3;
                           mkEdge 3 4 3; mkEdge 0 1 4 ];
            mst_weight := 14 |}.
Proof. by vm_compute. Qed.

(** C1, as the code has it: on the fixture graph of [create_graph] (vertices
    0-5, fifteen edges) [kruskal] returns FIVE edges, in the order
    (1,2,2), (2,5,2), (2,3,3), (3,4,3), (0,1,4), with total weight 14; the
    sort by weight that fixes this order is stable, that is, the edges of
    each weight are examined in their insertion order. *)
Theorem kruskal_fixture :
  kruskal create_graph =
  Return {| mst_edges := [ mkEdge 1 2 2; mkEdge 2 5 2; mkEdge 2 3 3;
                           mkEdge 3 4 3; mkEdge 0 1 4 ];
            mst_weight := 14 |} ∧
  get_vertices_nb create_graph = 6 ∧
  map weight (edges create_graph) = [4;4;2;4;4;2;3;2;4;3;3;4;3;2;3] ∧
  ∀ w, filter (λ e, weight e = w) (sorted (edges create_graph)) =
       filter (λ e, weight e = w) (edges create_graph).
Proof.
  split_and!; [apply kruskal_create_graph|by vm_compute|by vm_compute|].
  intros w. apply sorted_stable.
Qed.

(** C1, as the specification states it, fails: the result on the fixture
    graph is not the four edges (1,2,2), (2,5,2), (2,3,3), (0,1,4) with total
    weight 8. *)
Lemma kruskal_fixture_not_weight_8 :
  ¬ ∃ mst, kruskal create_graph = Return mst ∧
           mst_weight mst = 8 ∧
           mst_edges mst =
             [ mkEdge 1 2 2; mkEdge 2 5 2; mkEdge 2 3 3; mkEdge 0 1 4 ].
Proof.
  intros (mst & Hk & Hw & _). rewrite kruskal_create_graph in Hk.
  injection Hk as <-. discriminate Hw.
Qed.

(** ** The square with a tail *)

Lemma kruskal_square_with_tail :
  kruskal square_with_tail =
  Return {| mst_edges := [ mkEdge 0 1 1; mkEdge 2 3 1; mkEdge 1 3 1;
                           mkEdge 2 0 1 ];
            mst_weight := 4 |}.
Proof. by vm_compute. Qed.

Lemma square_with_tail_vertices u :
  u ∈ vertices square_with_tail → u ∈ [0; 1; 2; 3; 4].
Proof.
  intros Hu%elem_of_elements.
  assert (elements (vertices square_with_tail) = [3; 4; 2; 1; 0]) as Heq
    by (by vm_compute).
  rewrite Heq in Hu. revert Hu. rewrite !elem_of_cons. tauto.
Qed.

(** The unit edges 0-1, 2-3, 1-3 and the tail 3-4 form a spanning tree. *)
Lemma square_with_tail_tree :
  spanning_tree square_with_tail
    [ mkEdge 0 1 1; mkEdge 2 3 1; mkEdge 1 3 1; mkEdge 3 4 5 ].
Proof.
  set (t := [ mkEdge 0 1 1; mkEdge 2 3 1; mkEdge 1 3 1; mkEdge 3 4 5 ]).
  split_and!.
  - unfold square_with_tail, graph_of_edges, t. simpl.
    do 3 apply sublist_skip. apply sublist_cons. apply sublist_skip.
    apply sublist_nil.
  - assert (∀ u, u ∈ vertices square_with_tail → connected t 0 u) as H0.
    { assert (connected t 0 1) as H1.
      { apply (connected_edge t (mkEdge 0 1 1)). set_solver. }
      assert (connected t 1 3) as H13.
      { apply (connected_edge t (mkEdge 1 3 1)). set_solver. }
      assert (connected t 3 2) as H32.
      { apply (connected_edge t (mkEdge 2 3 1)). set_solver. }
      assert (connected t 3 4) as H34.
      { apply (connected_edge t (mkEdge 3 4 5)). set_solver. }
      pose proof (connected_trans _ _ _ _ H1 H13) as H3.
      intros u Hu%square_with_tail_vertices.
      repeat (apply elem_of_cons in Hu as [->|Hu]);
        [apply connected_refl|done|by eapply connected_trans|done
        |by eapply connected_trans|by apply elem_of_nil in Hu]. }
    intros u v Hu Hv. eapply connected_trans; [|by apply H0].
    by apply connected_sym, H0.
  - intros (i & e & Hi & Hc). apply labels_sound in Hc.
    destruct i as [|[|[|[|i]]]]; simpl in Hi; try discriminate;
      injection Hi as <-; vm_compute in Hc; discriminate.
Qed.

(** C2 fails on the code.  On the connected graph [square_with_tail]
    (vertices 0-4) [kruskal] returns total weight 4, whereas the minimum
    total weight over all spanning trees of that graph is 8: the fourth unit
    edge 2-0 is accepted although 2 and 0 are already connected, and the loop
    stops before the tail 3-4 is examined. *)
Theorem kruskal_not_minimum :
  kruskal square_with_tail =
  Return {| mst_edges := [ mkEdge 0 1 1; mkEdge 2 3 1; mkEdge 1 3 1;
                           mkEdge 2 0 1 ];
            mst_weight := 4 |} ∧
  (∀ u v, u ∈ vertices square_with_tail → v ∈ vertices square_with_tail →
          connected (edges square_with_tail) u v) ∧
  min_spanning_weight square_with_tail 8.
Proof.
  split_and!; [apply kruskal_square_with_tail| |split].
  - intros u v Hu Hv.
    destruct square_with_tail_tree as (Hsub & Hconn & _).
    eapply connected_sublist; [done|]. by apply Hconn.
  - eexists. split; [apply square_with_tail_tree|reflexivity].
  - apply spanning_weight_bound. by vm_compute.
Qed.

(** C6 fails on the code.  On [square_with_tail] the edges returned by
    [kruskal] contain the cycle 0-1-3-2-0: the endpoints of the last edge 2-0
    are connected by the three edges before it.  Replaying the returned edges
    through a fresh [UnionFind], every [union] nevertheless returns true. *)
Theorem kruskal_returns_cycle :
  ∃ mst uf,
    kruskal square_with_tail = Return mst ∧
    has_cycle (mst_edges mst) ∧
    replay (get_vertices_nb square_with_tail) (mst_edges mst) =
    Return ([Merged true; Merged true; Merged true; Merged true], uf).
Proof.
  do 2 eexists. split_and!; [apply kruskal_square_with_tail| |by vm_compute].
  exists 3%nat, (mkEdge 2 0 1). split; [done|]. simpl.
  eapply (connected_step _ (mkEdge 2 3 1) 2 3); [set_solver|by left|].
  eapply (connected_step _ (mkEdge 1 3 1) 3 1); [set_solver|by right|].
  eapply (connected_step _ (mkEdge 0 1 1) 1 0); [set_solver|by right|].
  apply connected_refl.
Qed.

(** ** union on trees with more than one element *)

(** C3 fails on the code: [union] re-points the ARGUMENT, not its root.
    Equal ranks: [two_pairs] is reached from a fresh structure; its roots 0
    and 2 both have rank 2, and [union(1,3)] returns true with the rank of
    root 0 raised to 3, but the root 2 of [b = 3] keeps itself as parent:
    only slot 3 moves under 0.  Different ranks: [pair_and_quad] is reached
    from a fresh structure; root 0 has rank 2, root 2 has rank 3, and
    [union(1,3)] returns true, but the smaller root 0 keeps itself as parent:
    only slot 1 moves under 2. *)
Theorem union_moves_argument_not_root :
  (run_ops [Union 0 1; Union 2 3] (UnionFind_init 4) =
     Return ([Merged true; Merged true], two_pairs) ∧
   run_ops [Find 1; Find 3] two_pairs =
     Return ([Root 0; Root 2], two_pairs) ∧
   ranks two_pairs !! 0%nat = Some 2 ∧ ranks two_pairs !! 2%nat = Some 2 ∧
   union two_pairs 1 3 =
     Return (true, {| parents := [0; 0; 2; 0]; ranks := [3; 1; 2; 1] |})) ∧
  (run_ops [Union 0 1; Union 2 3; Union 4 5; Union 2 4] (UnionFind_init 6) =
     Return ([Merged true; Merged true; Merged true; Merged true],
             pair_and_quad) ∧
   run_ops [Find 1; Find 3] pair_and_quad =
     Return ([Root 0; Root 2], pair_and_quad) ∧
   ranks pair_and_quad !! 0%nat = Some 2 ∧
   ranks pair_and_quad !! 2%nat = Some 3 ∧
   union pair_and_quad 1 3 =
     Return (true, {| parents := [0; 2; 2; 2; 2; 4];
                      ranks := [2; 1; 3; 1; 2; 1] |})).
Proof. split; split_and!; by vm_compute. Qed.

(** C4 fails on the code: a merge can be undone by a later one.  On a fresh
    structure of four elements [union(2,3)] returns true; after [union(0,1)]
    and [union(1,3)], which also return true, [find(2)] is 2 and [find(3)]
    is 0. *)
Theorem union_not_permanent :
  ∃ uf,
    run_ops [Union 2 3; Union 0 1; Union 1 3; Find 2; Find 3]
            (UnionFind_init 4) =
    Return ([Merged true; Merged true; Merged true; Root 2; Root 0], uf).
Proof. eexists. by vm_compute. Qed.

(** C5 fails on the code: a [union] that returns true can leave the number of
    roots unchanged.  On a fresh structure of four elements the three calls
    [union(0,1)], [union(2,3)], [union(1,3)] all return true; there are two
    roots before the third call and still two after it, not 4 - 3 = 1. *)
Theorem union_keeps_root_count :
  ∃ uf,
    count_roots (UnionFind_init 4) = 4%nat ∧
    run_ops [Union 0 1; Union 2 3] (UnionFind_init 4) =
      Return ([Merged true; Merged true], two_pairs) ∧
    count_roots two_pairs = 2%nat ∧
    union two_pairs 1 3 = Return (true, uf) ∧
    count_roots uf = 2%nat.
Proof. eexists. split_and!; by vm_compute. Qed.

(** ** Graphs without enough edges *)

(** C7, as the specification states it, fails: on the graph with vertices
    {0, 1} and no edge there is no dedicated error; [kruskal] fails with the
    unchecked [IndexError] of [sorted_edges[edges_idx]]. *)
Lemma kruskal_two_isolated_vertices :
  get_vertices_nb two_isolated_vertices = 2 ∧
  edges two_isolated_vertices = [] ∧
  kruskal two_isolated_vertices = IndexError.
Proof. split_and!; by vm_compute. Qed.

(** With enough edges a graph that is not connected can make [kruskal]
    return: on [square_and_loop] vertex 4 is connected to no other vertex,
    and the four edges of the square are returned. *)
Lemma kruskal_square_and_loop :
  kruskal square_and_loop =
    Return {| mst_edges := [ mkEdge 0 1 1; mkEdge 2 3 1; mkEdge 1 3 1;
                             mkEdge 2 0 1 ];
              mst_weight := 4 |} ∧
  ¬ connected (edges square_and_loop) 4 0.
Proof.
  split; [by vm_compute|]. intros Hc%labels_sound.
  vm_compute in Hc. discriminate.
Qed.

(** C7, as the code has it: for every graph with fewer than [n - 1] edges,
    [n] being its number of vertices (such a graph cannot be connected),
    [kruskal] does not return and does not loop: it fails with Python's
    unchecked [IndexError], raised by [sorted_edges[edges_idx]] once the
    edges are used up, or before that by a subscript of the parent list. *)
Theorem kruskal_few_edges_IndexError (g : Graph) :
  Z.of_nat (length (edges g)) < get_vertices_nb g - 1 →
  kruskal g = IndexError.
Proof.
  intros Hlen. rewrite kruskal_loop_eq. unfold get_vertices_nb in *.
  apply kruskal_loop_few_edges.
  - rewrite <- (Nat2Z.id (size (vertices g))) at 1. apply UnionFind_init_wf.
  - rewrite sorted_length. simpl. lia.
Qed.

Lemma kruskal_few_edges_IndexError_witness :
  Z.of_nat (length (edges two_isolated_vertices)) <
    get_vertices_nb two_isolated_vertices - 1 ∧
  kruskal two_isolated_vertices = IndexError.
Proof.
  assert (Z.of_nat (length (edges two_isolated_vertices)) <
          get_vertices_nb two_isolated_vertices - 1) as H by (by vm_compute).
  split; [exact H|]. exact (kruskal_few_edges_IndexError _ H).
Defined.

(** ** Subscripts out of range *)

(** C8, as the specification states it, fails: on a structure of one element
    the index -1 lies outside [[0, 1)], yet [find(-1)] returns 0; on a fresh
    structure of two elements [union(-1, 0)] returns true. *)
Lemma find_negative_index_tolerated :
  ¬ (0 <= -1 < 1) ∧
  find (UnionFind_init 1) (-1) = Return (0, UnionFind_init 1) ∧
  union (UnionFind_init 2) (-1) 0 =
    Return (true, {| parents := [1; 1]; ranks := [1; 2] |}).
Proof. split_and!; [lia|by vm_compute..]. Qed.

Lemma find_length uf v r uf' :
  find uf v = Return (r, uf') → length (parents uf') = length (parents uf).
Proof. intros [_ ->]%find_Return. apply compressed_length. Qed.

Lemma find_out_of_range uf v :
  v < - Z.of_nat (length (parents uf)) ∨ Z.of_nat (length (parents uf)) <= v →
  find uf v = IndexError.
Proof.
  intros Hv. unfold find, find_fuel. rewrite find_root_unfold.
  by rewrite py_get_out_of_range.
Qed.

(** C8, as the code has it: for every structure over [n] elements and every
    index [v] with [v < -n] or [n <= v], [find(v)] raises [IndexError];
    [union(v, b)] raises [IndexError]; [union(a, v)] never returns, and
    raises [IndexError] whenever [find(a)] returns.  (The indices of
    [[-n, 0)] are accepted: they count from the end of the list.) *)
Theorem out_of_range_IndexError (uf : UnionFind) (v : Z) :
  v < - Z.of_nat (length (parents uf)) ∨ Z.of_nat (length (parents uf)) <= v →
  find uf v = IndexError ∧
  (∀ b, union uf v b = IndexError) ∧
  (∀ a res, union uf a v ≠ Return res) ∧
  (∀ a r uf', find uf a = Return (r, uf') → union uf a v = IndexError).
Proof.
  intros Hv. pose proof (find_out_of_range uf v Hv) as Hfind.
  assert (∀ a r uf', find uf a = Return (r, uf') →
                     union uf a v = IndexError) as Hunion.
  { intros a r uf' Ha. unfold union. rewrite Ha, Return_bind.
    rewrite find_out_of_range; [done|].
    by rewrite (find_length _ _ _ _ Ha). }
  split_and!; [done| |  |done].
  - intros b. unfold union. by rewrite Hfind.
  - intros a res Hres. pose proof Hres as Hres'. unfold union in Hres'.
    apply bind_Return in Hres' as ([r uf'] & Ha & _).
    rewrite (Hunion _ _ _ Ha) in Hres. discriminate.
Qed.

Lemma out_of_range_IndexError_witness :
  (2 < - Z.of_nat (length (parents (UnionFind_init 2))) ∨
   Z.of_nat (length (parents (UnionFind_init 2))) <= 2) ∧
  find (UnionFind_init 2) 2 = IndexError.
Proof.
  assert (2 < - Z.of_nat (length (parents (UnionFind_init 2))) ∨
          Z.of_nat (length (parents (UnionFind_init 2))) <= 2) as H
    by (right; by vm_compute).
  split; [exact H|]. exact (proj1 (out_of_range_IndexError _ _ H)).
Defined.

(** ** The empty graph *)

(** C9: for every graph with zero vertices, [kruskal] returns an empty edge
    list and total weight 0. *)
Theorem kruskal_empty_graph (g : Graph) :
  vertices g = ∅ →
  kruskal g = Return {| mst_edges := []; mst_weight := 0 |}.
Proof.
  intros Hv. rewrite kruskal_loop_eq. unfold get_vertices_nb.
  rewrite Hv, size_empty.
  by rewrite kruskal_loop_unfold.
Qed.

Lemma kruskal_empty_graph_witness :
  vertices Graph_init = ∅ ∧
  kruskal Graph_init = Return {| mst_edges := []; mst_weight := 0 |}.
Proof.
  split; [reflexivity|]. exact (kruskal_empty_graph Graph_init eq_refl).
Defined.

(** ** Self-loops *)

(** C10: whenever [kruskal] returns, no edge of the returned list is a
    self-loop.  The returned edges are some of the sorted edges, in that
    order, and the returned weight is the sum of their weights, so a skipped
    edge adds nothing to it; and a self-loop is skipped because two
    consecutive calls of [find] on one vertex return the same root. *)
Theorem kruskal_skips_self_loops (g : Graph) (mst : MinimumSpanningTree) :
  kruskal g = Return mst →
  (∀ e, e ∈ mst_edges mst → from_ e ≠ to e) ∧
  sublist (mst_edges mst) (sorted (edges g)) ∧
  mst_weight mst = edges_weight (mst_edges mst) ∧
  (∀ uf v r uf', find uf v = Return (r, uf') →
                 ∃ uf'', find uf' v = Return (r, uf'')).
Proof.
  intros Hk. rewrite kruskal_loop_eq in Hk.
  apply kruskal_loop_accepts in Hk as (Hall & Hw & l & Hl & Hsub);
    [|by constructor|done].
  split_and!; [|by rewrite Hl|done|apply find_twice].
  intros e He. by apply (proj1 (Forall_forall _ _) Hall).
Qed.

Lemma kruskal_skips_self_loops_witness :
  kruskal loop_and_edge =
    Return {| mst_edges := [mkEdge 0 1 2]; mst_weight := 2 |} ∧
  ∀ e, e ∈ [mkEdge 0 1 2] → from_ e ≠ to e.
Proof.
  assert (kruskal loop_and_edge =
          Return {| mst_edges := [mkEdge 0 1 2]; mst_weight := 2 |}) as H
    by (by vm_compute).
  split; [exact H|]. exact (proj1 (kruskal_skips_self_loops _ _ H)).
Defined.

(** * Further properties of the code *)

(** ** find: what compression changes and what it keeps *)

Lemma reach_fixed ps v r d :
  reach ps v (Return r) d → py_get ps r = Return r.
Proof.
  intros H. remember (Return r) as o eqn:Ho.
  induction H as [v Hv|v Hv|v p o d Hv Hne _ IH].
  - by injection Ho as <-.
  - discriminate.
  - by apply IH.
Qed.

Lemma find_root_reach_root fuel ps v r :
  find_root fuel ps v = Return r → ∃ d, reach ps v (Return r) d.
Proof.
  intros H. destruct (find_root_reach fuel ps v _ H) as (d & _ & ?); [done|].
  eauto.
Qed.

Lemma reach_find ps ranks0 v r d :
  reach ps v (Return r) d →
  find {| parents := ps; ranks := ranks0 |} v =
  Return (r, {| parents := compressed ps v r; ranks := ranks0 |}).
Proof.
  intros H. apply (find_closed_form {| parents := ps; ranks := ranks0 |}).
  cbn [parents]. apply (reach_find_root _ _ _ d); [done|].
  apply reach_bound in H. unfold find_fuel. lia.
Qed.

(** The parent of a vertex that is not its own root, and the slot of that
    parent, which is the one slot compression writes. *)
Lemma compressed_insert fuel ps v r :
  find_root fuel ps v = Return r → v ≠ r →
  ∃ x k d, py_get ps v = Return x ∧ x ≠ v ∧
           py_index (length ps) x = Some k ∧
           reach ps x (Return r) d ∧
           compressed ps v r = <[k := r]> ps.
Proof.
  intros Hroot Hne. destruct fuel as [|fuel]; [discriminate|].
  rewrite find_root_unfold in Hroot.
  apply bind_Return in Hroot as (x & Hx & Hroot).
  destruct (Z.eqb_spec x v) as [->|Hxv]; [by injection Hroot as ->|].
  destruct (find_root_reach_root _ _ _ _ Hroot) as (d & Hreach).
  assert (∃ k, py_index (length ps) x = Some k) as [k Hk].
  { inversion Hreach as [? Hg| |? ? ? ? Hg]; subst;
      apply py_get_Return in Hg as (k & ? & _); eauto. }
  exists x, k, d. split_and!; try done.
  unfold compressed. destruct (Z.eqb_spec v r) as [|_]; [done|].
  by rewrite Hx, Hk.
Qed.

(** Writing its root into the slot of a vertex changes no root. *)
Lemma reach_insert_own_root ps x r k d u ru du :
  reach ps x (Return r) d → py_index (length ps) x = Some k →
  reach ps u (Return ru) du →
  ∃ d', reach (<[k := r]> ps) u (Return ru) d'.
Proof.
  intros Hx Hk Hu.
  pose proof (reach_fixed _ _ _ _ Hx) as Hr.
  pose proof (py_get_insert_fixed ps k r Hr) as Hr'.
  remember (Return ru) as o eqn:Ho.
  induction Hu as [u Hu|u Hu|u p o du Hu Hne Hp IH].
  - injection Ho as <-.
    pose proof Hu as (ku & Hku & Hlu)%py_get_Return.
    destruct (decide (ku = k)) as [->|Hkk].
    + assert (r = u) as ->.
      { inversion Hx as [? Hg| |? p ? ? Hg Hne Hp]; subst;
          apply py_get_Return in Hg as (k' & Hk' & Hl');
          rewrite Hk in Hk'; injection Hk' as <-;
          rewrite Hlu in Hl'; injection Hl' as <-; [done|].
        by destruct (reach_fun _ _ _ _ _ _ Hp (reach_root _ _ Hu))
          as [[= ->] _]. }
      exists 0%nat. constructor. by apply py_get_insert.
    + exists 0%nat. constructor.
      by rewrite (py_get_insert_ne _ _ _ _ _ Hku Hkk).
  - discriminate.
  - destruct (IH Ho) as (d' & IH'). subst o.
    pose proof Hu as (ku & Hku & Hlu)%py_get_Return.
    destruct (decide (ku = k)) as [->|Hkk].
    + assert (ru = r) as ->.
      { inversion Hx as [? Hg| |? p' ? ? Hg Hne' Hp']; subst;
          apply py_get_Return in Hg as (k' & Hk' & Hl');
          rewrite Hk in Hk'; injection Hk' as <-;
          rewrite Hlu in Hl'; injection Hl' as <-.
        - by destruct (reach_fun _ _ _ _ _ _ Hp (reach_root _ _ Hr))
            as [[= ->] _].
        - by destruct (reach_fun _ _ _ _ _ _ Hp Hp') as [[= ->] _]. }
      destruct (decide (r = u)) as [->|Hru].
      { rewrite Hr in Hu. by injection Hu as ->. }
      exists 1%nat. eapply reach_step; [by apply py_get_insert|done|].
      by constructor.
    + exists (S d'). eapply reach_step; [|done..].
      by rewrite (py_get_insert_ne _ _ _ _ _ Hku Hkk).
Qed.

Lemma compressed_reach fuel ps v r u ru du :
  find_root fuel ps v = Return r → reach ps u (Return ru) du →
  ∃ d', reach (compressed ps v r) u (Return ru) d'.
Proof.
  intros Hroot Hu. destruct (decide (v = r)) as [->|Hne].
  { unfold compressed. rewrite Z.eqb_refl. eauto. }
  destruct (compressed_insert _ _ _ _ Hroot Hne)
    as (x & k & d & _ & _ & Hk & Hx & ->).
  by eapply reach_insert_own_root.
Qed.

Lemma compressed_idem fuel ps v r :
  find_root fuel ps v = Return r →
  compressed (compressed ps v r) v r = compressed ps v r.
Proof.
  intros Hroot. destruct (decide (v = r)) as [->|Hne].
  { unfold compressed. by rewrite Z.eqb_refl. }
  pose proof (find_root_fixed _ _ _ _ Hroot) as Hr.
  destruct (compressed_insert _ _ _ _ Hroot Hne)
    as (x & k & d & Hv & Hxv & Hk & Hx & ->).
  pose proof (py_index_Some _ _ _ Hk) as [Hklt _].
  pose proof Hv as (kv & Hkv & Hlv)%py_get_Return.
  unfold compressed at 1. destruct (Z.eqb_spec v r) as [|_]; [done|].
  rewrite length_insert.
  destruct (decide (kv = k)) as [->|Hkk].
  - rewrite (py_get_insert _ _ _ _ Hkv).
    pose proof (py_get_insert_fixed ps k r Hr) as (kr & Hkr & Hlr)%py_get_Return.
    rewrite length_insert in Hkr. rewrite Hkr. by apply list_insert_id.
  - rewrite (py_get_insert_ne _ _ _ _ _ Hkv Hkk), Hv, Hk.
    apply list_insert_id. by apply list_lookup_insert_eq.
Qed.

(** X1: [find] does not move any vertex to another set: if [find(v)] returns,
    then [find(u)] returns afterwards what it returned before, for every
    [u]. *)
Theorem find_keeps_all_roots uf v r uf' u ru ufu :
  find uf v = Return (r, uf') →
  find uf u = Return (ru, ufu) →
  ∃ ufu', find uf' u = Return (ru, ufu').
Proof.
  intros [Hroot ->]%find_Return [Hu _]%find_Return.
  destruct (find_root_reach_root _ _ _ _ Hu) as (du & Hreach).
  destruct (compressed_reach _ _ _ _ _ _ _ Hroot Hreach) as (d' & H').
  eexists. by eapply reach_find.
Qed.

Lemma find_keeps_all_roots_witness :
  ∃ ufu', find {| parents := [0; 0; 0; 2]; ranks := [1; 1; 1; 1] |} 1 =
          Return (0, ufu').
Proof.
  exact (find_keeps_all_roots
           {| parents := [0; 0; 1; 2]; ranks := [1; 1; 1; 1] |} 3 0
           {| parents := [0; 0; 0; 2]; ranks := [1; 1; 1; 1] |} 1 0
           {| parents := [0; 0; 1; 2]; ranks := [1; 1; 1; 1] |}
           eq_refl eq_refl).
Defined.

(** X2: [find] is idempotent.  Once [find(v)] has returned [r], calling
    [find(v)] again, or [find(r)], returns [r] and changes nothing. *)
Theorem find_idempotent uf v r uf' :
  find uf v = Return (r, uf') →
  find uf' v = Return (r, uf') ∧ find uf' r = Return (r, uf').
Proof.
  intros [Hroot ->]%find_Return. split.
  - rewrite (find_closed_form _ v r); cbn [parents ranks].
    + by rewrite (compressed_idem _ _ _ _ Hroot).
    + by eapply find_root_compressed.
  - pose proof (compressed_fixed _ _ _ _ r Hroot
                  (find_root_fixed _ _ _ _ Hroot)) as Hr.
    rewrite (find_closed_form _ r r); cbn [parents ranks].
    + unfold compressed at 1. by rewrite Z.eqb_refl.
    + unfold find_fuel. rewrite find_root_unfold, Hr, Return_bind.
      by rewrite Z.eqb_refl.
Qed.

Lemma find_idempotent_witness :
  find {| parents := [0; 0; 0; 2]; ranks := [1; 1; 1; 1] |} 3 =
    Return (0, {| parents := [0; 0; 0; 2]; ranks := [1; 1; 1; 1] |}).
Proof.
  exact (proj1 (find_idempotent
                  {| parents := [0; 0; 1; 2]; ranks := [1; 1; 1; 1] |} 3 0
                  {| parents := [0; 0; 0; 2]; ranks := [1; 1; 1; 1] |}
                  eq_refl)).
Defined.

(** X3: what [find(v)] writes.  When [find(v)] returns [r], with [x] the
    parent of [v] before the call: the ranks and the length of the parent
    list are unchanged, [r] is its own parent, the parent of [x] is now [r],
    and every slot other than the one of [x] is unchanged.  In particular a
    vertex [v >= 0] with a parent [x >= 0] keeps [x] as parent: the walk from
    [v] is not re-pointed as a whole. *)
Theorem find_writes_parent_slot uf v r uf' :
  find uf v = Return (r, uf') →
  ranks uf' = ranks uf ∧
  length (parents uf') = length (parents uf) ∧
  py_get (parents uf') r = Return r ∧
  ∃ x, py_get (parents uf) v = Return x ∧
       py_get (parents uf') x = Return r ∧
       (∀ k, py_index (length (parents uf)) x ≠ Some k →
             parents uf' !! k = parents uf !! k) ∧
       (0 <= v → 0 <= x → py_get (parents uf') v = Return x).
Proof.
  intros [Hroot ->]%find_Return. cbn [parents ranks].
  pose proof (find_root_fixed _ _ _ _ Hroot) as Hr.
  split_and!; [done|apply compressed_length|by eapply compressed_fixed|].
  destruct (decide (v = r)) as [->|Hne].
  { exists r. unfold compressed. rewrite Z.eqb_refl. by split_and!. }
  destruct (compressed_insert _ _ _ _ Hroot Hne)
    as (x & k & d & Hv & Hxv & Hk & Hx & ->).
  exists x. split_and!; [done|by apply py_get_insert| |].
  - intros k' Hk'. apply list_lookup_insert_ne. congruence.
  - intros Hv0 Hx0. pose proof Hv as (kv & Hkv & _)%py_get_Return.
    rewrite (py_get_insert_ne _ _ kv k); [done..|].
    apply py_index_Some in Hk as [_ [[_ ->]|[? _]]]; [|lia].
    apply py_index_Some in Hkv as [_ [[_ ->]|[? _]]]; [|lia].
    lia.
Qed.

Lemma find_writes_parent_slot_witness :
  ranks {| parents := [0; 0; 0; 2]; ranks := [1; 1; 1; 1] |} =
  ranks {| parents := [0; 0; 1; 2]; ranks := [1; 1; 1; 1] |}.
Proof.
  exact (proj1 (find_writes_parent_slot
                  {| parents := [0; 0; 1; 2]; ranks := [1; 1; 1; 1] |} 3 0
                  {| parents := [0; 0; 0; 2]; ranks := [1; 1; 1; 1] |}
                  eq_refl)).
Defined.

(** ** union: what holds in spite of the re-pointed argument *)

Lemma union_Return uf a b res uf' :
  union uf a b = Return (res, uf') →
  ∃ r1 uf1 r2 uf2,
    find uf a = Return (r1, uf1) ∧ find uf1 b = Return (r2, uf2) ∧
    ((r1 = r2 ∧ res = false ∧ uf' = uf2) ∨
     (r1 ≠ r2 ∧ res = true ∧
      ∃ x1 x2,
        py_get (ranks uf2) r1 = Return x1 ∧
        py_get (ranks uf2) r2 = Return x2 ∧
        ((x2 < x1 ∧ ∃ kb,
            py_index (length (parents uf2)) b = Some kb ∧
            uf' = {| parents := <[kb := r1]> (parents uf2);
                     ranks := ranks uf2 |}) ∨
         (x1 < x2 ∧ ∃ ka,
            py_index (length (parents uf2)) a = Some ka ∧
            uf' = {| parents := <[ka := r2]> (parents uf2);
                     ranks := ranks uf2 |}) ∨
         (x1 = x2 ∧ ∃ kb k1,
            py_index (length (parents uf2)) b = Some kb ∧
            py_index (length (ranks uf2)) r1 = Some k1 ∧
            ranks uf2 !! k1 = Some x1 ∧
            uf' = {| parents := <[kb := r1]> (parents uf2);
                     ranks := <[k1 := x1 + 1]> (ranks uf2) |})))).
Proof.
  unfold union. intros H.
  apply bind_Return in H as ([r1 uf1] & Ha & H).
  apply bind_Return in H as ([r2 uf2] & Hb & H).
  exists r1, uf1, r2, uf2. split_and!; [done..|].
  destruct (Z.eqb_spec r1 r2) as [->|Hne].
  { left. by injection H as <- <-. }
  right. apply bind_Return in H as (x1 & Hx1 & H).
  apply bind_Return in H as (x2 & Hx2 & H).
  split_and!; [done| |exists x1, x2; split_and!; [done..|]].
  - rewrite Z.gtb_ltb in H.
    destruct (x2 <? x1), (x1 <? x2);
      repeat (apply bind_Return in H as (? & _ & H)); by injection H as <- _.
  - rewrite Z.gtb_ltb in H.
    destruct (Z.ltb_spec x2 x1) as [Hlt|Hge].
    { left. split; [done|].
      apply bind_Return in H as (ps & (kb & Hkb & ->)%py_set_Return & H).
      injection H as _ <-. eauto. }
    destruct (Z.ltb_spec x1 x2) as [Hlt|Hge'].
    { right. left. split; [done|].
      apply bind_Return in H as (ps & (ka & Hka & ->)%py_set_Return & H).
      injection H as _ <-. eauto. }
    right. right. split; [lia|].
    apply bind_Return in H as (ps & (kb & Hkb & ->)%py_set_Return & H).
    rewrite Hx1, Return_bind in H.
    apply bind_Return in H as (rs & (k1 & Hk1 & ->)%py_set_Return & H).
    injection H as _ <-. exists kb, k1. split_and!; [done..| |done].
    apply py_get_Return in Hx1 as (k1' & Hk1' & Hl1). congruence.
Qed.

(** What a slot holds leads to the root of the vertex that owns the slot. *)
Lemma reach_slot_root ps u ru du k p :
  reach ps u (Return ru) du → py_index (length ps) u = Some k →
  ps !! k = Some p → ∃ d', reach ps p (Return ru) d'.
Proof.
  intros Hu Hk Hp.
  assert (py_get ps u = Return p) as Hget by (apply py_get_Return; eauto).
  inversion Hu as [? Hg| |? q ? d' Hg Hne Hq]; subst;
    rewrite Hget in Hg; injection Hg as ->; eauto.
Qed.

(** Writing into a slot that belongs to another tree does not change the
    walk to the root. *)
Lemma reach_insert_other_root ps a r1 d b r2 db kb z :
  reach ps a (Return r1) d → reach ps b (Return r2) db → r1 ≠ r2 →
  py_index (length ps) b = Some kb →
  reach (<[kb := z]> ps) a (Return r1) d.
Proof.
  intros Ha Hb Hne Hkb.
  assert (∀ u p, py_get ps u = Return p →
                 (∃ du, reach ps u (Return r1) du) →
                 py_get (<[kb := z]> ps) u = Return p) as Hkeep.
  { intros u p Hu (du & Hru).
    pose proof Hu as (ku & Hku & Hlu)%py_get_Return.
    rewrite (py_get_insert_ne _ _ ku kb); [done..|].
    intros ->. apply Hne.
    destruct (reach_slot_root _ _ _ _ _ _ Hru Hku Hlu) as (d1 & H1).
    destruct (reach_slot_root _ _ _ _ _ _ Hb Hkb Hlu) as (d2 & H2).
    by destruct (reach_fun _ _ _ _ _ _ H1 H2) as [[= ->] _]. }
  remember (Return r1) as o eqn:Ho.
  induction Ha as [a Ha|a Ha|a p o d Ha Hap Hp IH].
  - injection Ho as <-. constructor. apply Hkeep; [done|].
    exists 0%nat. by constructor.
  - discriminate.
  - subst o. eapply reach_step; [|done|by apply IH].
    apply Hkeep; [done|]. exists (S d). by econstructor.
Qed.

Lemma both_reach_find ps rk a b r da db :
  reach ps a (Return r) da → reach ps b (Return r) db →
  ∃ ufa ufb,
    find {| parents := ps; ranks := rk |} a = Return (r, ufa) ∧
    find ufa b = Return (r, ufb).
Proof.
  intros Ha Hb. do 2 eexists. split; [by eapply reach_find|].
  assert (find_root (S da) ps a = Return r) as Hroot
    by (eapply reach_find_root; [done|lia]).
  destruct (compressed_reach _ _ _ _ _ _ _ Hroot Hb) as (d' & Hb').
  by eapply reach_find.
Qed.

Lemma find_reach_after uf v r uf' :
  find uf v = Return (r, uf') → ∃ d, reach (parents uf') v (Return r) d.
Proof.
  intros [Hroot ->]%find_Return. cbn [parents].
  eapply find_root_reach_root. by eapply find_root_compressed.
Qed.

(** X4: whenever [union(a, b)] returns, true or false, [a] and [b] are in one
    set afterwards: [find(a)] and then [find(b)] return the same root. *)
Theorem union_joins_arguments uf a b res uf' :
  union uf a b = Return (res, uf') →
  ∃ r ufa ufb, find uf' a = Return (r, ufa) ∧ find ufa b = Return (r, ufb).
Proof.
  intros (r1 & uf1 & r2 & uf2 & Ha & Hb & Hcases)%union_Return.
  destruct (find_reach_after _ _ _ _ Ha) as (da & Hra1).
  destruct (find_reach_after _ _ _ _ Hb) as (db & Hrb).
  pose proof Hb as [Hroot2 Huf2]%find_Return.
  destruct (compressed_reach _ _ _ _ _ _ _ Hroot2 Hra1) as (da' & Hra).
  assert (parents uf2 = compressed (parents uf1) b r2) as Hps2 by (by subst).
  rewrite <- Hps2 in Hra. clear Hroot2 Huf2 Hps2 Hra1 da.
  destruct Hcases as [(-> & -> & ->)|(Hne & -> & x1 & x2 & _ & _ & Hcases)].
  { exists r2. destruct uf2 as [ps2 rk2]. by eapply both_reach_find. }
  pose proof (reach_root _ _ (reach_fixed _ _ _ _ Hra)) as Hr1.
  pose proof (reach_root _ _ (reach_fixed _ _ _ _ Hrb)) as Hr2.
  assert (b ≠ r1) as Hb1.
  { intros ->. by destruct (reach_fun _ _ _ _ _ _ Hrb Hr1) as [[= ->] _]. }
  assert (a ≠ r2) as Ha2.
  { intros ->. by destruct (reach_fun _ _ _ _ _ _ Hra Hr2) as [[= ->] _]. }
  assert (∀ kb rk, py_index (length (parents uf2)) b = Some kb →
            ∃ ufa ufb,
              find {| parents := <[kb := r1]> (parents uf2); ranks := rk |} a
                = Return (r1, ufa) ∧
              find ufa b = Return (r1, ufb)) as Hto_a.
  { intros kb rk Hkb. eapply both_reach_find.
    - exact (reach_insert_other_root _ a r1 _ b r2 db kb r1 Hra Hrb Hne Hkb).
    - eapply reach_step; [by apply py_get_insert|done|].
      exact (reach_insert_other_root _ r1 r1 _ b r2 db kb r1
               Hr1 Hrb Hne Hkb). }
  destruct Hcases as [(_ & kb & Hkb & ->)|[(_ & ka & Hka & ->)
                     |(_ & kb & k1 & Hkb & _ & _ & ->)]].
  - exists r1. by apply Hto_a.
  - assert (r2 ≠ r1) as Hne' by done.
    exists r2. eapply both_reach_find.
    + eapply reach_step; [by apply py_get_insert|done|].
      exact (reach_insert_other_root _ r2 r2 _ a r1 da' ka r2
               Hr2 Hra Hne' Hka).
    + exact (reach_insert_other_root _ b r2 _ a r1 da' ka r2
               Hrb Hra Hne' Hka).
  - exists r1. by apply Hto_a.
Qed.

Lemma union_joins_arguments_witness :
  ∃ r ufa ufb,
    find {| parents := [0; 0; 2; 0]; ranks := [3; 1; 2; 1] |} 1
      = Return (r, ufa) ∧
    find ufa 3 = Return (r, ufb).
Proof.
  exact (union_joins_arguments two_pairs 1 3 true
           {| parents := [0; 0; 2; 0]; ranks := [3; 1; 2; 1] |} eq_refl).
Defined.

(** X5: [union] and the ranks.  [union] keeps the lengths of both lists; it
    never lowers a rank and raises at most by 1; when it returns false the
    ranks are unchanged. *)
Theorem union_ranks_grow uf a b res uf' :
  union uf a b = Return (res, uf') →
  length (parents uf') = length (parents uf) ∧
  length (ranks uf') = length (ranks uf) ∧
  (res = false → ranks uf' = ranks uf) ∧
  ∀ k x, ranks uf !! k = Some x →
         ∃ x', ranks uf' !! k = Some x' ∧ x <= x' <= x + 1.
Proof.
  intros (r1 & uf1 & r2 & uf2 & Ha & Hb & Hcases)%union_Return.
  pose proof (find_length _ _ _ _ Ha) as Hl1.
  pose proof (find_length _ _ _ _ Hb) as Hl2.
  apply find_Return in Ha as [_ ->]. apply find_Return in Hb as [_ ->].
  cbn [parents ranks] in *.
  assert (∀ k x, ranks uf !! k = Some x →
            ∃ x', ranks uf !! k = Some x' ∧ x <= x' <= x + 1) as Hsame.
  { intros k x Hk. exists x. split; [done|lia]. }
  destruct Hcases as [(_ & -> & ->)|(_ & -> & x1 & x2 & _ & _ & Hcases)].
  { cbn [parents ranks]. split_and!; [congruence|done..]. }
  destruct Hcases as [(_ & kb & _ & ->)|[(_ & ka & _ & ->)
                     |(_ & kb & k1 & _ & _ & Hk1 & ->)]];
    cbn [parents ranks];
    (split_and!; [rewrite length_insert; congruence
                 |by rewrite ?length_insert|done|]); try done.
  intros k x Hk. destruct (decide (k = k1)) as [->|Hkk].
  - exists (x1 + 1). rewrite list_lookup_insert_eq
      by (by eapply lookup_lt_Some).
    split; [done|]. rewrite Hk in Hk1. injection Hk1 as ->. lia.
  - exists x. rewrite list_lookup_insert_ne by done. split; [done|lia].
Qed.

Lemma union_ranks_grow_witness :
  length (parents {| parents := [0; 0; 2; 0]; ranks := [3; 1; 2; 1] |}) =
  length (parents two_pairs).
Proof.
  exact (proj1 (union_ranks_grow two_pairs 1 3 true
                  {| parents := [0; 0; 2; 0]; ranks := [3; 1; 2; 1] |}
                  eq_refl)).
Defined.

(** ** The order in which kruskal reads the edges *)

Lemma by_weight_trans : Relations_1.Transitive by_weight.
Proof. intros x y z. unfold by_weight. lia. Qed.

Lemma StronglySorted_sublist (t l : list Edge) :
  sublist t l → StronglySorted by_weight l → StronglySorted by_weight t.
Proof.
  induction 1 as [|x t l Hsub IH|x t l Hsub IH]; intros Hl.
  - constructor.
  - apply StronglySorted_inv in Hl as [Hl Hx]. constructor; [by apply IH|].
    apply Forall_forall. intros y Hy.
    apply (proj1 (Forall_forall _ _) Hx). by eapply elem_of_sublist.
  - apply StronglySorted_inv in Hl as [Hl _]. by apply IH.
Qed.

(** X6: the list [sorted(graph.edges, key=weight)] that [kruskal] walks
    through holds the same edges as [graph.edges], in non-decreasing order of
    weight, and the edges of any one weight stand in it in their insertion
    order. *)
Theorem sorted_edges_stable (l : list Edge) :
  sorted l ≡ₚ l ∧
  StronglySorted by_weight (sorted l) ∧
  ∀ w, filter (λ e, weight e = w) (sorted l) = filter (λ e, weight e = w) l.
Proof.
  split_and!.
  - apply sorted_Permutation.
  - apply Sorted_StronglySorted; [apply by_weight_trans|apply sorted_Sorted].
  - intros w. apply sorted_stable.
Qed.

(** ** What kruskal returns *)

Lemma kruskal_loop_length nb rest acc total uf mst :
  kruskal_loop nb rest acc total uf = Return mst →
  Z.of_nat (length acc) <= Z.max 0 (nb - 1) →
  Z.of_nat (length (mst_edges mst)) = Z.max 0 (nb - 1).
Proof.
  revert acc total uf.
  induction rest as [|e rest IH]; intros acc total uf;
    rewrite kruskal_loop_unfold;
    destruct (Z.ltb_spec (Z.of_nat (length acc)) (nb - 1)) as [Hlt|Hge];
    try discriminate.
  - intros [= <-] Hacc. simpl. lia.
  - intros H Hacc.
    apply bind_Return in H as ([pf u1] & _ & H).
    apply bind_Return in H as ([pt u2] & _ & H).
    destruct (negb (pf =? pt)).
    + apply bind_Return in H as ([b u3] & _ & H).
      apply IH in H; [done|]. rewrite length_app. simpl. lia.
    + by apply IH in H.
  - intros [= <-] Hacc. simpl. lia.
Qed.

(** X7: whenever [kruskal] returns, it returns exactly [n - 1] edges for a
    graph of [n >= 1] vertices, and no edge for a graph without vertices. *)
Theorem kruskal_edge_count (g : Graph) (mst : MinimumSpanningTree) :
  kruskal g = Return mst →
  Z.of_nat (length (mst_edges mst)) = Z.max 0 (get_vertices_nb g - 1).
Proof.
  rewrite kruskal_loop_eq. intros H.
  apply kruskal_loop_length in H; [done|]. simpl. lia.
Qed.

Lemma kruskal_edge_count_witness :
  Z.of_nat (length [ mkEdge 1 2 2; mkEdge 2 5 2; mkEdge 2 3 3;
                     mkEdge 3 4 3; mkEdge 0 1 4 ]) =
  Z.max 0 (get_vertices_nb create_graph - 1).
Proof.
  assert (kruskal create_graph =
          Return {| mst_edges := [ mkEdge 1 2 2; mkEdge 2 5 2; mkEdge 2 3 3;
                                   mkEdge 3 4 3; mkEdge 0 1 4 ];
                    mst_weight := 14 |}) as H by (by vm_compute).
  exact (kruskal_edge_count _ _ H).
Defined.

(** X8: whenever [kruskal] returns, the returned edges are edges of the graph,
    none of them more often than the graph holds it, listed in
    non-decreasing order of weight. *)
Theorem kruskal_result_from_graph (g : Graph) (mst : MinimumSpanningTree) :
  kruskal g = Return mst →
  mst_edges mst ⊆+ edges g ∧
  (∀ e, e ∈ mst_edges mst → e ∈ edges g) ∧
  StronglySorted by_weight (mst_edges mst).
Proof.
  rewrite kruskal_loop_eq. intros H.
  apply kruskal_loop_accepts in H as (_ & _ & l & Hl & Hsub);
    [|by constructor|done].
  simpl in Hl. rewrite <- Hl in Hsub.
  assert (mst_edges mst ⊆+ edges g) as Hms.
  { rewrite <- (sorted_Permutation (edges g)). by apply sublist_submseteq. }
  split_and!; [done| |].
  - intros e He. by eapply elem_of_submseteq.
  - eapply StronglySorted_sublist; [done|].
    apply Sorted_StronglySorted; [apply by_weight_trans|apply sorted_Sorted].
Qed.

Lemma kruskal_result_from_graph_witness :
  [mkEdge 0 1 2] ⊆+ edges loop_and_edge.
Proof.
  assert (kruskal loop_and_edge =
          Return {| mst_edges := [mkEdge 0 1 2]; mst_weight := 2 |}) as H
    by (by vm_compute).
  exact (proj1 (kruskal_result_from_graph _ _ H)).
Defined.

(** ** Graph: the vertex set follows the edges *)

Lemma size_union_singleton_le (X : gset Z) (a : Z) :
  (size (X ∪ {[a]}) ≤ size X + 1)%nat.
Proof.
  rewrite size_union_alt.
  assert (size (({[a]} : gset Z) ∖ X) ≤ size ({[a]} : gset Z))%nat as H.
  { apply subseteq_size. intros x Hx. by apply elem_of_difference in Hx as [? _]. }
  rewrite size_singleton in H. lia.
Qed.

Lemma add_edge_vertex_count_aux (g : Graph) (e : Edge) :
  get_vertices_nb (add_edge g e) <= get_vertices_nb g + 2.
Proof.
  unfold get_vertices_nb, add_edge. cbn [vertices].
  pose proof (size_union_singleton_le (vertices g) (from_ e)).
  pose proof (size_union_singleton_le (vertices g ∪ {[from_ e]}) (to e)).
  lia.
Qed.

(** X9: [add_edge] appends the edge, keeps the vertices already seen, and
    raises the vertex count by at most 2; an edge between two vertices
    already seen (a duplicate or a reversed edge, say) leaves the count as it
    is. *)
Theorem add_edge_vertex_count (g : Graph) (e : Edge) :
  edges (add_edge g e) = edges g ++ [e] ∧
  vertices g ⊆ vertices (add_edge g e) ∧
  get_vertices_nb g <= get_vertices_nb (add_edge g e)
    <= get_vertices_nb g + 2 ∧
  (from_ e ∈ vertices g → to e ∈ vertices g →
   get_vertices_nb (add_edge g e) = get_vertices_nb g).
Proof.
  unfold get_vertices_nb, add_edge. cbn [vertices edges].
  assert (vertices g ⊆ vertices g ∪ {[from_ e]} ∪ {[to e]}) as Hsub.
  { intros x Hx. apply elem_of_union. left. apply elem_of_union. by left. }
  split_and!; [done|done| | |].
  - by apply inj_le, subseteq_size.
  - pose proof (size_union_singleton_le (vertices g) (from_ e)).
    pose proof (size_union_singleton_le (vertices g ∪ {[from_ e]}) (to e)).
    lia.
  - intros Hf Ht. f_equal. f_equal. apply set_eq. intros x.
    rewrite !elem_of_union, !elem_of_singleton. split; [|by do 2 left].
    by intros [[?| ->]| ->].
Qed.

Lemma fold_add_edge l g0 :
  edges (fold_left add_edge l g0) = edges g0 ++ l ∧
  ∀ v, v ∈ vertices (fold_left add_edge l g0) ↔
       v ∈ vertices g0 ∨ ∃ e, e ∈ l ∧ (v = from_ e ∨ v = to e).
Proof.
  revert g0. induction l as [|e l IH]; intros g0; simpl.
  - split; [by rewrite app_nil_r|]. intros v. split; [by left|].
    intros [?|(e & []%elem_of_nil & _)]. done.
  - destruct (IH (add_edge g0 e)) as [Hedges Hvert]. split.
    + rewrite Hedges. simpl. by rewrite <- app_assoc.
    + intros v. rewrite Hvert. unfold add_edge at 1. cbn [vertices].
      rewrite !elem_of_union, !elem_of_singleton. split.
      * intros [[[?| ->]| ->]|(e' & He' & Hv)]; [by left| | |].
        -- right. exists e. split; [by left|by left].
        -- right. exists e. split; [by left|by right].
        -- right. exists e'. split; [by right|done].
      * intros [?|(e' & [->|He']%elem_of_cons & Hv)].
        -- by do 3 left.
        -- left. destruct Hv as [->| ->]; [left; by right|by right].
        -- right. eauto.
Qed.

(** X10: a graph built from [Graph()] by [add_edge] holds the edges in the
    order they were added, its vertices are exactly the endpoints of its
    edges, and there are at most twice as many vertices as edges. *)
Theorem graph_of_edges_vertices (l : list Edge) :
  edges (graph_of_edges l) = l ∧
  (∀ v, v ∈ vertices (graph_of_edges l) ↔
        ∃ e, e ∈ l ∧ (v = from_ e ∨ v = to e)) ∧
  get_vertices_nb (graph_of_edges l) <= 2 * Z.of_nat (length l).
Proof.
  unfold graph_of_edges.
  destruct (fold_add_edge l Graph_init) as [Hedges Hvert]. split_and!.
  - by rewrite Hedges.
  - intros v. rewrite Hvert. simpl. split; [|by right].
    intros [[]%not_elem_of_empty|?]. done.
  - clear Hedges Hvert.
    assert (∀ g0, get_vertices_nb (fold_left add_edge l g0) <=
                  get_vertices_nb g0 + 2 * Z.of_nat (length l)) as Hcount.
    { induction l as [|e l' IH]; intros g0; simpl; [lia|].
      specialize (IH (add_edge g0 e)).
      pose proof (add_edge_vertex_count_aux g0 e). lia. }
    specialize (Hcount Graph_init).
    assert (get_vertices_nb Graph_init = 0) as H0 by reflexivity. lia.
Qed.

(** ** Termination *)

Lemma py_index_in_range len v :
  - Z.of_nat len <= v < Z.of_nat len → is_Some (py_index len v).
Proof.
  intros Hv. destruct (py_index len v) as [k|] eqn:Hk; [by eexists|].
  apply py_index_None in Hk. lia.
Qed.

Lemma find_wf_in_range n uf v :
  wf_uf n uf → - Z.of_nat n <= v < Z.of_nat n →
  ∃ r uf', find uf v = Return (r, uf') ∧ wf_uf n uf'.
Proof.
  intros Hwf Hv.
  destruct (find_wf n uf v Hwf) as [[Hnone _]|(r & uf' & ? & ? & _)];
    [|by eauto].
  apply py_index_None in Hnone. lia.
Qed.

Lemma union_wf_in_range n uf a b :
  wf_uf n uf →
  - Z.of_nat n <= a < Z.of_nat n → - Z.of_nat n <= b < Z.of_nat n →
  ∃ res uf', union uf a b = Return (res, uf') ∧ wf_uf n uf'.
Proof.
  intros Hwf Ha Hb.
  destruct (find_wf_in_range n uf a Hwf Ha) as (r1 & uf1 & Hf1 & Hwf1).
  destruct (find_wf_in_range n uf1 b Hwf1 Hb) as (r2 & uf2 & Hf2 & Hwf2).
  destruct (union_wf n uf a b Hwf) as [Herr|?]; [|done].
  exfalso. unfold union in Herr. rewrite Hf1, Return_bind in Herr.
  rewrite Hf2, Return_bind in Herr.
  destruct (Z.eqb_spec r1 r2) as [|Hne]; [done|].
  destruct Hwf2 as [Hlen2 Hrlen2 _].
  assert (py_get (parents uf2) r2 = Return r2) as Hr2.
  { pose proof Hf2 as [Hroot2 ->]%find_Return. cbn [parents].
    eapply compressed_fixed; [done|]. by eapply find_root_fixed. }
  assert (py_get (parents uf2) r1 = Return r1) as Hr1.
  { apply find_Return in Hf1 as [Hroot1 ->].
    apply find_Return in Hf2 as [Hroot2 ->]. cbn [parents] in *.
    eapply compressed_fixed; [done|].
    eapply compressed_fixed; [done|]. by eapply find_root_fixed. }
  pose proof Hr1 as (k1 & Hk1 & Hl1)%py_get_Return.
  pose proof Hr2 as (k2 & Hk2 & Hl2)%py_get_Return.
  rewrite Hlen2 in Hk1, Hk2.
  destruct (lookup_lt_is_Some_2 (ranks uf2) k1) as [x1 Hx1].
  { rewrite Hrlen2. by apply py_index_Some in Hk1 as [? _]. }
  destruct (lookup_lt_is_Some_2 (ranks uf2) k2) as [x2 Hx2].
  { rewrite Hrlen2. by apply py_index_Some in Hk2 as [? _]. }
  assert (py_get (ranks uf2) r1 = Return x1) as Hg1
    by (apply py_get_Return; rewrite Hrlen2; eauto).
  assert (py_get (ranks uf2) r2 = Return x2) as Hg2
    by (apply py_get_Return; rewrite Hrlen2; eauto).
  rewrite Hg1, Return_bind, Hg2, Return_bind in Herr.
  destruct (py_index_in_range n a Ha) as [ka Hka].
  destruct (py_index_in_range n b Hb) as [kb Hkb].
  unfold py_set in Herr.
  rewrite Hlen2, Hrlen2, Hka, Hkb, Hk1, !Return_bind in Herr.
  by destruct (x1 >? x2), (x1 <? x2).
Qed.

(** X11: on a structure made by [UnionFind(n)], every sequence of [find] and
    [union] calls whose arguments lie in [[-n, n)] runs to its end: no call
    raises [IndexError] and no call loops.  Each call returns one answer and
    the two lists keep their length [n]. *)
Theorem dsu_script_returns (n : Z) (ops : list op) :
  Forall (op_in_range n) ops →
  ∃ out uf',
    run_ops ops (UnionFind_init n) = Return (out, uf') ∧
    length out = length ops ∧
    length (parents uf') = Z.to_nat n ∧ length (ranks uf') = Z.to_nat n.
Proof.
  intros Hops.
  assert (∀ uf, wf_uf (Z.to_nat n) uf →
            ∃ out uf', run_ops ops uf = Return (out, uf') ∧
                       length out = length ops ∧ wf_uf (Z.to_nat n) uf')
    as Hrun.
  { induction Hops as [|o ops Ho _ IH]; intros uf Hwf; simpl.
    - exists [], uf. by split_and!.
    - assert (∀ v, - n <= v < n →
                - Z.of_nat (Z.to_nat n) <= v < Z.of_nat (Z.to_nat n))
        as Hrange by lia.
      destruct o as [v|a b]; simpl in Ho.
      + destruct (find_wf_in_range _ uf v Hwf (Hrange _ Ho))
          as (r & uf1 & -> & Hwf1).
        rewrite Return_bind.
        destruct (IH uf1 Hwf1) as (out & uf2 & -> & Hlen & Hwf2).
        rewrite !Return_bind. do 2 eexists. split_and!; [done| |done].
        simpl. by rewrite Hlen.
      + destruct Ho as [Ha Hb].
        destruct (union_wf_in_range _ uf a b Hwf (Hrange _ Ha) (Hrange _ Hb))
          as (res & uf1 & -> & Hwf1).
        rewrite Return_bind.
        destruct (IH uf1 Hwf1) as (out & uf2 & -> & Hlen & Hwf2).
        rewrite !Return_bind. do 2 eexists. split_and!; [done| |done].
        simpl. by rewrite Hlen. }
  destruct (Hrun _ (UnionFind_init_wf n)) as (out & uf' & ? & ? & [? ? _]).
  eauto 10.
Qed.

Lemma dsu_script_returns_witness :
  ∃ out uf',
    run_ops [Union 0 1; Union (-1) 1; Find 2] (UnionFind_init 4)
      = Return (out, uf') ∧
    length out = 3%nat ∧
    length (parents uf') = 4%nat ∧ length (ranks uf') = 4%nat.
Proof.
  assert (Forall (op_in_range 4) [Union 0 1; Union (-1) 1; Find 2]) as H.
  { repeat constructor; simpl; lia. }
  exact (dsu_script_returns 4 _ H).
Defined.

(** X12: [kruskal] terminates on every graph: it returns a result or raises
    [IndexError]; the loops of [find] never run for ever on the structure
    that [kruskal] builds. *)
Theorem kruskal_terminates (g : Graph) :
  kruskal g = IndexError ∨ ∃ mst, kruskal g = Return mst.
Proof.
  pose proof (kruskal_not_Loops g) as H.
  destruct (kruskal g) as [mst| |]; [right; eauto|by left|done].
Qed.

(** ** More ways for kruskal to raise IndexError *)

(** X13: vertex labels have to lie in [[-n, n)].  If a graph has at least two
    vertices and an endpoint of the first edge in sorted order is below [-n]
    or at least [n], [kruskal] raises [IndexError]. *)
Theorem kruskal_label_out_of_range (g : Graph) (e : Edge) (rest : list Edge) :
  sorted (edges g) = e :: rest →
  1 < get_vertices_nb g →
  (from_ e < - get_vertices_nb g ∨ get_vertices_nb g <= from_ e ∨
   to e < - get_vertices_nb g ∨ get_vertices_nb g <= to e) →
  kruskal g = IndexError.
Proof.
  intros Hsorted Hn Hout. rewrite kruskal_loop_eq, Hsorted.
  rewrite kruskal_loop_unfold. unfold get_vertices_nb in *.
  destruct (Z.ltb_spec (Z.of_nat (length (@nil Edge)))
              (Z.of_nat (size (vertices g)) - 1)) as [_|Hge];
    [|simpl in Hge; lia].
  pose proof (UnionFind_init_wf (Z.of_nat (size (vertices g)))) as Hwf.
  rewrite Nat2Z.id in Hwf.
  destruct (find_wf _ _ (from_ e) Hwf)
    as [[_ ->]|(r1 & u1 & -> & Hwf1 & [k1 Hk1] & _)]; [done|].
  rewrite Return_bind.
  destruct (find_wf _ _ (to e) Hwf1)
    as [[_ ->]|(r2 & u2 & -> & Hwf2 & [k2 Hk2] & _)]; [done|].
  exfalso. apply py_index_Some in Hk1 as [_ Hk1].
  apply py_index_Some in Hk2 as [_ Hk2]. lia.
Qed.

Lemma kruskal_label_out_of_range_witness :
  kruskal far_labels = IndexError.
Proof.
  assert (sorted (edges far_labels) = [mkEdge 5 7 1]) as H1
    by (by vm_compute).
  assert (1 < get_vertices_nb far_labels) as H2 by (by vm_compute).
  assert (from_ (mkEdge 5 7 1) < - get_vertices_nb far_labels ∨
          get_vertices_nb far_labels <= from_ (mkEdge 5 7 1) ∨
          to (mkEdge 5 7 1) < - get_vertices_nb far_labels ∨
          get_vertices_nb far_labels <= to (mkEdge 5 7 1)) as H3.
  { right. left. by vm_compute. }
  exact (kruskal_label_out_of_range far_labels _ _ H1 H2 H3).
Defined.

Lemma kruskal_loop_few_proper_edges n rest acc total uf :
  wf_uf n uf →
  Z.of_nat (length acc) +
    Z.of_nat (length (filter (λ e, from_ e ≠ to e) rest)) < Z.of_nat n - 1 →
  kruskal_loop (Z.of_nat n) rest acc total uf = IndexError.
Proof.
  revert acc total uf.
  induction rest as [|e rest IH]; intros acc total uf Hwf Hlen;
    rewrite kruskal_loop_unfold;
    (destruct (Z.ltb_spec (Z.of_nat (length acc)) (Z.of_nat n - 1));
     [|simpl in Hlen; lia]); [done|].
  destruct (find_wf n uf (from_ e) Hwf)
    as [[_ ->]|(r1 & u1 & Hf1 & Hwf1 & _)]; [done|].
  rewrite Hf1, Return_bind.
  destruct (find_wf n u1 (to e) Hwf1)
    as [[_ ->]|(r2 & u2 & Hf2 & Hwf2 & _)]; [done|].
  rewrite Hf2, Return_bind. rewrite filter_cons in Hlen.
  destruct (decide (from_ e ≠ to e)) as [Hproper|Hloop].
  - simpl in Hlen. destruct (negb _).
    + destruct (union_wf n u2 (from_ e) (to e) Hwf2)
        as [->|(b & u3 & -> & Hwf3)]; [done|].
      rewrite Return_bind. apply IH; [done|].
      rewrite length_app. simpl. lia.
    + apply IH; [done|lia].
  - assert (from_ e = to e) as Heq by (by destruct (decide (from_ e = to e))).
    destruct (find_twice _ _ _ _ Hf1) as (u' & Hf1').
    rewrite Heq in Hf1'. rewrite Hf1' in Hf2. injection Hf2 as <- <-.
    rewrite Z.eqb_refl. simpl. by apply IH.
Qed.

(** X14: self-loops do not count.  If fewer than [n - 1] edges of the graph
    join two different labels, [n] being the number of vertices, [kruskal]
    raises [IndexError]. *)
Theorem kruskal_few_proper_edges (g : Graph) :
  Z.of_nat (length (filter (λ e, from_ e ≠ to e) (edges g))) <
    get_vertices_nb g - 1 →
  kruskal g = IndexError.
Proof.
  intros Hlen. rewrite kruskal_loop_eq. unfold get_vertices_nb in *.
  apply kruskal_loop_few_proper_edges.
  - rewrite <- (Nat2Z.id (size (vertices g))) at 1. apply UnionFind_init_wf.
  - rewrite (sorted_Permutation (edges g)). simpl. lia.
Qed.

Lemma kruskal_few_proper_edges_witness :
  kruskal two_loops = IndexError.
Proof.
  assert (Z.of_nat (length (filter (λ e, from_ e ≠ to e) (edges two_loops)))
          < get_vertices_nb two_loops - 1) as H by (by vm_compute).
  exact (kruskal_few_proper_edges two_loops H).
Defined.

(** ** Roots as arguments *)

Lemma find_of_root uf r :
  py_get (parents uf) r = Return r → find uf r = Return (r, uf).
Proof.
  intros Hr. rewrite (find_closed_form uf r r).
  - unfold compressed. rewrite Z.eqb_refl. by destruct uf.
  - unfold find_fuel. rewrite find_root_unfold, Hr, Return_bind.
    by rewrite Z.eqb_refl.
Qed.

(** X15: a structure made by [UnionFind(n)] consists of singletons: for
    [0 <= v < n], [find(v)] returns [v] and changes nothing; the negative
    subscripts [-n <= v < 0] are other names of the same elements, and
    [find(v)] returns [n + v]. *)
Theorem fresh_find (n v : Z) :
  (0 <= v < n → find (UnionFind_init n) v = Return (v, UnionFind_init n)) ∧
  (- n <= v < 0 →
   find (UnionFind_init n) v = Return (n + v, UnionFind_init n)).
Proof.
  assert (∀ u k, py_index (Z.to_nat n) u = Some k →
            py_get (parents (UnionFind_init n)) u = Return (Z.of_nat k))
    as Hget.
  { intros u k Hk. apply py_get_Return. exists k. simpl.
    rewrite length_map, py_range_length. split; [done|].
    rewrite list_lookup_fmap, py_range_lookup; [done|].
    by apply py_index_Some in Hk as [? _]. }
  assert (∀ u, 0 <= u < n → py_index (Z.to_nat n) u = Some (Z.to_nat u))
    as Hnonneg.
  { intros u Hu. rewrite <- (Z2Nat.id u) at 1 by lia.
    apply py_index_nat. lia. }
  assert (∀ u, 0 <= u < n →
            py_get (parents (UnionFind_init n)) u = Return u) as Hfix.
  { intros u Hu. rewrite (Hget u _ (Hnonneg u Hu)). f_equal. lia. }
  split; intros Hv.
  - by apply find_of_root, Hfix.
  - assert (py_index (Z.to_nat n) v = Some (Z.to_nat (n + v))) as Hk.
    { unfold py_index.
      destruct (Z.leb_spec 0 v); [lia|]. simpl.
      destruct (Z.leb_spec (- Z.of_nat (Z.to_nat n)) v); [|lia].
      destruct (Z.ltb_spec v 0); [|lia]. simpl. do 2 f_equal. lia. }
    pose proof (Hget v _ Hk) as Hgv.
    rewrite Z2Nat.id in Hgv by lia.
    assert (0 <= n + v < n) as Hin by lia.
    rewrite (find_closed_form _ v (n + v)).
    + f_equal. f_equal. unfold compressed.
      destruct (Z.eqb_spec v (n + v)) as [|_]; [lia|].
      rewrite Hgv. simpl. rewrite length_map, py_range_length.
      rewrite (Hnonneg _ Hin).
      destruct (UnionFind_init n) as [ps rk] eqn:Huf. simpl.
      injection Huf as <- <-. f_equal.
      apply list_insert_id. rewrite list_lookup_fmap, py_range_lookup by lia.
      simpl. f_equal. lia.
    + unfold find_fuel. rewrite find_root_unfold, Hgv, Return_bind.
      destruct (Z.eqb_spec (n + v) v) as [|_]; [lia|].
      assert (length (parents (UnionFind_init n)) ≠ 0%nat) as Hlen.
      { simpl. rewrite length_map, py_range_length. lia. }
      destruct (length (parents (UnionFind_init n))); [done|].
      rewrite find_root_unfold, (Hfix _ Hin), Return_bind.
      by rewrite Z.eqb_refl.
Qed.

Lemma fresh_find_witness :
  find (UnionFind_init 3) 2 = Return (2, UnionFind_init 3) ∧
  find (UnionFind_init 3) (-1) = Return (3 + -1, UnionFind_init 3).
Proof.
  split.
  - apply (proj1 (fresh_find 3 2)). lia.
  - apply (proj2 (fresh_find 3 (-1))). lia.
Defined.

(** X16: applied to two different roots, [union] is union by rank.  If [a] and
    [b] are their own parents, [a ≠ b], with ranks [x1] and [x2], then
    [union(a, b)] returns true and writes one parent slot: the root of
    smaller rank gets the other root as parent, and on equal ranks [b] gets
    [a] as parent and the rank of [a] becomes [x1 + 1].  Nothing else
    changes. *)
Theorem union_of_roots uf a b x1 x2 ka kb k1 :
  py_get (parents uf) a = Return a →
  py_get (parents uf) b = Return b →
  a ≠ b →
  py_get (ranks uf) a = Return x1 →
  py_get (ranks uf) b = Return x2 →
  py_index (length (parents uf)) a = Some ka →
  py_index (length (parents uf)) b = Some kb →
  py_index (length (ranks uf)) a = Some k1 →
  union uf a b =
  Return (true,
    if x1 <? x2 then
      {| parents := <[ka := b]> (parents uf); ranks := ranks uf |}
    else if x2 <? x1 then
      {| parents := <[kb := a]> (parents uf); ranks := ranks uf |}
    else
      {| parents := <[kb := a]> (parents uf);
         ranks := <[k1 := x1 + 1]> (ranks uf) |}).
Proof.
  intros Ha Hb Hne Hx1 Hx2 Hka Hkb Hk1. unfold union.
  rewrite (find_of_root uf a Ha), Return_bind.
  rewrite (find_of_root uf b Hb), Return_bind.
  destruct (Z.eqb_spec a b) as [|_]; [done|].
  rewrite Hx1, Return_bind, Hx2, Return_bind.
  unfold py_set. rewrite Hka, Hkb, Hk1, !Return_bind, Z.gtb_ltb.
  destruct (Z.ltb_spec x2 x1), (Z.ltb_spec x1 x2); try done. lia.
Qed.

Lemma union_of_roots_witness :
  union two_pairs 0 2 =
  Return (true, {| parents := [0; 0; 0; 2]; ranks := [3; 1; 2; 1] |}).
Proof.
  exact (union_of_roots two_pairs 0 2 2 2 0 2 0
           eq_refl eq_refl ltac:(lia) eq_refl eq_refl eq_refl eq_refl eq_refl).
Defined.

(** ** Printing *)

Lemma string_has_app c s1 s2 :
  string_has c (s1 +:+ s2) ↔ string_has c s1 ∨ string_has c s2.
Proof.
  induction s1 as [|c1 s1 IH]; simpl; [tauto|]. rewrite IH. tauto.
Qed.

(** Two strings that agree up to the first occurrence of [c] agree before it
    and after it. *)
Lemma append_split c s1 r1 s2 r2 :
  ¬ string_has c s1 → ¬ string_has c s2 →
  s1 +:+ String c r1 = s2 +:+ String c r2 → s1 = s2 ∧ r1 = r2.
Proof.
  revert s2. induction s1 as [|c1 s1 IH]; intros [|c2 s2] H1 H2 Heq;
    simpl in *.
  - by injection Heq as ->.
  - injection Heq as -> _. tauto.
  - injection Heq as -> _. tauto.
  - injection Heq as -> Heq. destruct (IH s2) as [-> ->]; [tauto..|done|done].
Qed.

Lemma pretty_N_char_digit x : string_has (pretty_N_char x) "0123456789".
Proof. unfold pretty_N_char. repeat case_match; simpl; tauto. Qed.

Lemma pretty_N_go_chars x s c :
  string_has c (pretty_N_go x s) →
  string_has c "0123456789" ∨ string_has c s.
Proof.
  revert s. induction (N.lt_wf_0 x) as [x _ IH]; intros s.
  assert (x = 0 ∨ 0 < x)%N as [->|Hx] by lia.
  - rewrite pretty_N_go_0. tauto.
  - rewrite pretty_N_go_step by done. intros H.
    apply IH in H; [|by apply N.div_lt].
    destruct H as [?|[->|?]];
      [by left|left; apply pretty_N_char_digit|by right].
Qed.

Lemma pretty_N_chars (x : N) c :
  string_has c (pretty x) → string_has c "0123456789".
Proof.
  unfold pretty, pretty_N. case_decide.
  - simpl. tauto.
  - intros [?|[]]%pretty_N_go_chars. done.
Qed.

(** The printed form of an integer holds digits and at most a minus sign. *)
Lemma pretty_Z_chars (z : Z) c :
  string_has c (pretty z) → string_has c "-0123456789".
Proof.
  destruct z as [|x|x]; unfold pretty, pretty_Z.
  - simpl. tauto.
  - intros H%pretty_N_chars. by right.
  - simpl. intros [->|H%pretty_N_chars]; [by left|by right].
Qed.

Lemma pretty_Z_no_comma (z : Z) : ¬ string_has ","%char (pretty z).
Proof.
  intros H%pretty_Z_chars. simpl in H.
  repeat (destruct H as [H|H]; [discriminate|]). done.
Qed.

Lemma pretty_Z_no_bracket (z : Z) : ¬ string_has "]"%char (pretty z).
Proof.
  intros H%pretty_Z_chars. simpl in H.
  repeat (destruct H as [H|H]; [discriminate|]). done.
Qed.

Lemma pretty_Z_no_space (z : Z) : ¬ string_has " "%char (pretty z).
Proof.
  intros H%pretty_Z_chars. simpl in H.
  repeat (destruct H as [H|H]; [discriminate|]). done.
Qed.

(** X17: [Edge.__repr__] is injective: two edges that print the same are the
    same edge. *)
Theorem Edge_repr_inj (e1 e2 : Edge) :
  Edge_repr e1 = Edge_repr e2 → e1 = e2.
Proof.
  destruct e1 as [f1 t1 w1], e2 as [f2 t2 w2]. unfold Edge_repr. simpl.
  intros [= H].
  apply append_split in H as [Hf H]; [|apply pretty_Z_no_comma..].
  simpl in H. injection H as H.
  apply append_split in H as [Ht H]; [|apply pretty_Z_no_comma..].
  simpl in H. injection H as H.
  apply append_split in H as [Hw _]; [|apply pretty_Z_no_bracket..].
  apply (inj pretty) in Hf, Ht, Hw. by subst.
Qed.

Lemma Edge_repr_inj_witness :
  mkEdge 1 2 3 = mkEdge (0 + 1) (1 + 1) (2 + 1).
Proof.
  exact (Edge_repr_inj (mkEdge 1 2 3) (mkEdge (0 + 1) (1 + 1) (2 + 1))
           eq_refl).
Defined.

Lemma append_assoc_str s1 s2 s3 : (s1 +:+ s2) +:+ s3 = s1 +:+ s2 +:+ s3.
Proof.
  induction s1 as [|c s1 IH]; [done|].
  change (String c ((s1 +:+ s2) +:+ s3) = String c (s1 +:+ s2 +:+ s3)).
  by rewrite IH.
Qed.

Lemma Edge_repr_app_inj e1 X1 e2 X2 :
  Edge_repr e1 +:+ X1 = Edge_repr e2 +:+ X2 → e1 = e2 ∧ X1 = X2.
Proof.
  destruct e1 as [f1 t1 w1], e2 as [f2 t2 w2]. unfold Edge_repr.
  cbn [from_ to weight]. rewrite !append_assoc_str. simpl. intros [= H].
  apply append_split in H as [Hf H]; [|apply pretty_Z_no_comma..].
  simpl in H. injection H as H.
  apply append_split in H as [Ht H]; [|apply pretty_Z_no_comma..].
  simpl in H. injection H as H.
  apply append_split in H as [Hw H]; [|apply pretty_Z_no_bracket..].
  apply (inj pretty) in Hf, Ht, Hw. by subst.
Qed.

Lemma join_reprs_cons_app e l Y :
  join_reprs (e :: l) +:+ Y =
  Edge_repr e +:+ match l with
                  | [] => Y
                  | _ => ", " +:+ join_reprs l +:+ Y
                  end.
Proof.
  destruct l as [|e' l]; [done|].
  change (join_reprs (e :: e' :: l))
    with (Edge_repr e +:+ ", " +:+ join_reprs (e' :: l)).
  by rewrite !append_assoc_str.
Qed.

Lemma join_reprs_inj l1 l2 s :
  join_reprs l1 +:+ String "]" s = join_reprs l2 +:+ String "]" s → l1 = l2.
Proof.
  revert l2. induction l1 as [|e1 l1 IH]; intros [|e2 l2].
  - done.
  - rewrite join_reprs_cons_app. unfold Edge_repr.
    rewrite !append_assoc_str. discriminate.
  - rewrite join_reprs_cons_app. unfold Edge_repr.
    rewrite !append_assoc_str. discriminate.
  - rewrite !join_reprs_cons_app. intros [-> H]%Edge_repr_app_inj.
    f_equal. destruct l1 as [|e1' l1], l2 as [|e2' l2]; try done.
    simpl in H. injection H as H. by apply IH.
Qed.

(** X18: [MinimumSpanningTree.__repr__] is injective: the printed line
    determines the total weight and the list of edges. *)
Theorem MinimumSpanningTree_repr_inj (t1 t2 : MinimumSpanningTree) :
  MinimumSpanningTree_repr t1 = MinimumSpanningTree_repr t2 → t1 = t2.
Proof.
  destruct t1 as [es1 w1], t2 as [es2 w2].
  unfold MinimumSpanningTree_repr, edges_repr. cbn [mst_edges mst_weight].
  rewrite !append_assoc_str. simpl. intros [= H].
  apply append_split in H as [Hw H]; [|apply pretty_Z_no_space..].
  simpl in H. injection H as H.
  apply join_reprs_inj in H. apply (inj pretty) in Hw. by subst.
Qed.

Lemma MinimumSpanningTree_repr_inj_witness :
  mkMST [mkEdge 0 1 2] 2 = mkMST [mkEdge 0 (0 + 1) 2] (1 + 1).
Proof.
  exact (MinimumSpanningTree_repr_inj
           (mkMST [mkEdge 0 1 2] 2) (mkMST [mkEdge 0 (0 + 1) 2] (1 + 1))
           eq_refl).
Defined.

(** The line printed by [main]. *)
Lemma main_output :
  main =
  Return ("Minimum spanning tree has total weight of 14 and has the " +:+
          "following edges [[from:1, to:2, weight:2], " +:+
          "[from:2, to:5, weight:2], [from:2, to:3, weight:3], " +:+
          "[from:3, to:4, weight:3], [from:0, to:1, weight:4]] " +:+
          String "010"%char EmptyString).
Proof. by vm_compute. Qed.

(** ** More on find and union *)

Lemma compress_closed_form fuel fuel' ps v r :
  find_root fuel ps v = Return r →
  compress (S (S fuel')) ps v r = Return (compressed ps v r).
Proof.
  intros Hroot. destruct (decide (v = r)) as [->|Hne].
  { rewrite compress_done. unfold compressed. by rewrite Z.eqb_refl. }
  destruct (compressed_insert _ _ _ _ Hroot Hne)
    as (x & k & d & Hv & _ & Hk & _ & ->).
  eapply compress_two_steps; try done. by eapply find_root_fixed.
Qed.

(** X19: the loops of [find] are bounded.  If the first loop stops at all, it
    stops within [len(parents) + 1] evaluations of its condition, with the
    same outcome; and after it has returned a root, the second loop makes at
    most two turns, whatever the length of the walk. *)
Theorem find_loops_bounded (fuel : nat) (ps : list Z) (v : Z) :
  find_root fuel ps v ≠ Loops →
  find_root (S (length ps)) ps v = find_root fuel ps v ∧
  ∀ r, find_root fuel ps v = Return r →
       ∀ fuel', compress (2 + fuel') ps v r = Return (compressed ps v r).
Proof.
  intros Hstop. split.
  - by apply (find_root_fuel_exact fuel).
  - intros r Hroot fuel'. by eapply compress_closed_form.
Qed.

Lemma find_loops_bounded_witness :
  find_root 5 [0; 0; 1; 2] 3 = find_root 100 [0; 0; 1; 2] 3.
Proof.
  assert (find_root 100 [0; 0; 1; 2] 3 ≠ Loops) as H by (by vm_compute).
  exact (proj1 (find_loops_bounded 100 [0; 0; 1; 2] 3 H)).
Defined.

Lemma find_again uf v r uf' :
  find uf v = Return (r, uf') → find uf' v = Return (r, uf').
Proof.
  intros [Hroot ->]%find_Return.
  rewrite (find_closed_form _ v r); cbn [parents ranks].
  - by rewrite (compressed_idem _ _ _ _ Hroot).
  - by eapply find_root_compressed.
Qed.

(** X20: [union(a, a)] returns false whenever [find(a)] returns, and leaves
    the structure as [find(a)] leaves it. *)
Theorem union_with_itself uf a r uf' :
  find uf a = Return (r, uf') → union uf a a = Return (false, uf').
Proof.
  intros Hfind. unfold union.
  rewrite Hfind, Return_bind, (find_again _ _ _ _ Hfind), Return_bind.
  by rewrite Z.eqb_refl.
Qed.

Lemma union_with_itself_witness :
  union two_pairs 3 3 = Return (false, two_pairs).
Proof. exact (union_with_itself two_pairs 3 2 two_pairs eq_refl). Defined.

(** X21: a negative subscript is another name of the same element.  For
    [-n <= v < 0], [n] being the length of the parent list, [find(n + v)]
    returns whatever root [find(v)] returns. *)
Theorem find_negative_alias uf v r uf' :
  - Z.of_nat (length (parents uf)) <= v < 0 →
  find uf v = Return (r, uf') →
  ∃ uf'', find uf (Z.of_nat (length (parents uf)) + v) = Return (r, uf'').
Proof.
  intros Hv [Hroot _]%find_Return.
  destruct (find_root_reach_root _ _ _ _ Hroot) as (d & Hreach).
  set (n := Z.of_nat (length (parents uf))) in *.
  assert (∃ k, py_index (length (parents uf)) v = Some k ∧
               py_index (length (parents uf)) (n + v) = Some k)
    as (k & Hkv & Hkn).
  { exists (Z.to_nat (n + v)). unfold py_index, n. split.
    - destruct (Z.leb_spec 0 v); [lia|]. simpl.
      destruct (Z.leb_spec (- Z.of_nat (length (parents uf))) v); [|lia].
      by destruct (Z.ltb_spec v 0); [|lia].
    - destruct (Z.leb_spec 0 (Z.of_nat (length (parents uf)) + v)); [|lia].
      by destruct (Z.ltb_spec (Z.of_nat (length (parents uf)) + v)
                  (Z.of_nat (length (parents uf)))); [|lia]. }
  assert (∃ p, parents uf !! k = Some p) as [p Hp].
  { apply lookup_lt_is_Some_2. by apply py_index_Some in Hkv as [? _]. }
  destruct (reach_slot_root _ _ _ _ _ _ Hreach Hkv Hp) as (d' & Hp').
  assert (py_get (parents uf) (n + v) = Return p) as Hget
    by (apply py_get_Return; eauto).
  assert (∃ d'', reach (parents uf) (n + v) (Return r) d'') as [d'' H''].
  { destruct (decide (p = n + v)) as [->|Hne].
    - by exists d'.
    - exists (S d'). by econstructor. }
  destruct uf as [ps rk]. eexists. by eapply reach_find.
Qed.

Lemma find_negative_alias_witness :
  ∃ uf'', find two_pairs (Z.of_nat (length (parents two_pairs)) + -1)
          = Return (2, uf'').
Proof.
  assert (- Z.of_nat (length (parents two_pairs)) <= -1 < 0) as H
    by (by vm_compute).
  exact (find_negative_alias two_pairs (-1) 2 two_pairs H eq_refl).
Defined.
